(** * Basic image processing of mathics-core: [mathics/builtin/image/basic.py]

    A shallow embedding of the builtins [Blur], [ImageAdjust],
    [ImagePartition] and [Sharpen], and the properties of their
    specification.

    Conventions of the embedding.
    - A NumPy array is an object that points into a storage buffer of the
      heap: its [shape] and the window of the buffer it covers belong to the
      object, the samples to the buffer.  Basic slicing makes a new object on
      the same buffer (a view); in-place operators write the buffer.
    - Samples are rationals ([Q]): floating-point arithmetic is idealised as
      exact arithmetic, and equality of samples is [Qeq].
    - A Python exception is the result [None] of a computation in the
      monad [M]; the Python value [None] returned by a builtin (the call
      stays unevaluated) is the value [None] of type [option expr]. *)

From Stdlib Require Import ZArith QArith Qminmax Lia Lqa.
From stdpp Require Import base option list gmap strings.

Set Warnings "-register-all".
Local Open Scope Z_scope.

(** ** Python integers, ranges and slices *)

(** [range(n)]: the integers [0 .. n-1], empty when [n <= 0]. *)
Definition range (n : Z) : list Z :=
  map Z.of_nat (seq 0 (Z.to_nat n)).

(** The normalisation of one bound of a slice against the length of the
    axis, as [slice.indices] does it for step 1: a negative bound counts from
    the end, and the result is clamped to [0 .. len]. *)
Definition slice_bound (len i : Z) : Z :=
  if i <? 0 then Z.max 0 (i + len) else Z.min i len.

(** [slice_indices len start stop] is the pair (first index, number of
    indices) that the slice [start:stop] selects on an axis of length
    [len]. *)
Definition slice_indices (len : nat) (start stop : Z) : nat * nat :=
  let lo := slice_bound (Z.of_nat len) start in
  let hi := slice_bound (Z.of_nat len) stop in
  (Z.to_nat lo, Z.to_nat (hi - lo)).

(** ** NumPy arrays *)

Definition loc := positive.

(** A storage buffer: rows of cells, a cell holding the samples of one
    pixel (one sample when the array has rank 2). *)
Abbreviation cell := (list Q).
Abbreviation buffer := (list (list (list Q))).

(** An array object.  [nd_chan] is [None] for an array of shape
    [(height, width)] and [Some c] for shape [(height, width, c)]. *)
Record ndarray := Ndarray {
  nd_base : loc;
  nd_row0 : nat;
  nd_col0 : nat;
  nd_height : nat;
  nd_width : nat;
  nd_chan : option nat
}.

(** [pixels.shape] *)
Definition shape (a : ndarray) : list nat :=
  match nd_chan a with
  | None => [nd_height a; nd_width a]
  | Some c => [nd_height a; nd_width a; c]
  end.

(** [shape[i]]; an index out of range raises [IndexError]. *)
Definition shape_at (a : ndarray) (i : nat) : option nat := shape a !! i.

(** The number of samples a cell of the array holds. *)
Definition cell_size (a : ndarray) : nat := default 1%nat (nd_chan a).

(** [a[r0:r1, c0:c1]]: basic slicing of the first two axes.  The result is
    a view: it has the base buffer of [a]. *)
Definition nd_slice (a : ndarray) (r0 r1 c0 c1 : Z) : ndarray :=
  let '(ro, rn) := slice_indices (nd_height a) r0 r1 in
  let '(co, cn) := slice_indices (nd_width a) c0 c1 in
  {| nd_base := nd_base a;
     nd_row0 := nd_row0 a + ro; nd_col0 := nd_col0 a + co;
     nd_height := rn; nd_width := cn;
     nd_chan := nd_chan a |}.

(** The part of a buffer that an array object covers. *)
Definition window (a : ndarray) (b : buffer) : buffer :=
  map (fun row => take (nd_width a) (drop (nd_col0 a) row))
      (take (nd_height a) (drop (nd_row0 a) b)).

(** A buffer of [h] rows of [w] cells of [c] samples. *)
Definition rect (h w c : nat) (v : buffer) : Prop :=
  length v = h /\
  Forall (fun row => length row = w /\ Forall (fun x : cell => length x = c) row) v.

#[global] Instance rect_dec h w c v : Decision (rect h w c v).
Proof. unfold rect. apply _. Defined.

(** The window of [a] lies inside the buffer and its cells have the size
    that the shape of [a] announces. *)
Definition fits (a : ndarray) (b : buffer) : Prop :=
  rect (nd_height a) (nd_width a) (cell_size a) (window a b).

(** [v[r][c]], the cell of a buffer at a row and a column. *)
Definition cell_at (v : buffer) (r c : nat) : option cell :=
  row ← v !! r; row !! c.

(** ** The host: expressions, messages, evaluation state *)

(** [Image(pixels, color_space)] *)
Record Image := MkImage {
  pixels : ndarray;
  color_space : string
}.

Inductive expr :=
  | EInteger (z : Z)
  | EReal (q : Q)
  | ESymbol (s : string)
  | EImage (im : Image)
  | ListExpression (items : list expr)
  | EApply (head : string) (args : list expr).

(** A message of the evaluation: symbol, tag, arguments. *)
Record message := Message {
  msg_symbol : string;
  msg_tag : string;
  msg_args : list expr
}.

Record state := State {
  heap : gmap loc buffer;
  out : list message
}.

(** Computations that read and write the state and may raise. *)
Definition M (A : Type) : Type := state -> option (A * state).

Definition ret {A} (x : A) : M A := fun st => Some (x, st).

Definition bind {A B} (m : M A) (k : A -> M B) : M B :=
  fun st => match m st with
            | Some (x, st') => k x st'
            | None => None
            end.

Definition raise {A} : M A := fun _ => None.

Declare Scope M_scope.
Delimit Scope M_scope with M.
Notation "x <- m ;; k" := (bind m (fun x => k))
  (at level 100, m at next level, right associativity) : M_scope.
Notation "m ;; k" := (bind m (fun _ => k))
  (at level 100, right associativity) : M_scope.

(** The samples an array object shows, read through its window. *)
Definition contents (h : gmap loc buffer) (a : ndarray) : option buffer :=
  b ← h !! nd_base a;
  if decide (fits a b) then Some (window a b) else None.

Definition read (a : ndarray) : M buffer :=
  fun st => match contents (heap st) a with
            | Some v => Some (v, st)
            | None => None
            end.

(** Modelled from the spec: [Evaluation.message] of
    [mathics.core.evaluation], which is not part of the source at hand.  The
    host "surfaces validation failures as user-visible diagnostic messages
    keyed by an error identifier and the invalid arguments, without aborting
    the overall session", and the failing call "is echoed back to the caller
    as an unevaluated expression": the message is appended to the output of
    the evaluation and the Python value [None] is returned. *)
Definition evaluation_message (symbol tag : string) (args : list expr)
  : M (option expr) :=
  fun st => Some (None, {| heap := heap st;
                           out := out st ++ [Message symbol tag args] |}).

(** Modelled from the spec: [from_python] of [mathics.core.convert.python],
    which is not part of the source at hand.  "A grid of buffers becomes a
    nested ordered collection": a Python list becomes a [ListExpression] of
    its converted items. *)
Definition from_python (parts : list (list Image)) : expr :=
  ListExpression (map (fun row => ListExpression (map EImage row)) parts).

(** ** NumPy: allocation, reductions, in-place arithmetic *)

(** A new storage buffer. *)
Definition alloc (b : buffer) : M loc :=
  fun st => let l := fresh (dom (heap st)) in
            Some (l, {| heap := <[l := b]> (heap st); out := out st |}).

(** The result of a reduction over the first two axes: a 0-d array for an
    array of rank 2, a 1-d array with one entry per channel for rank 3. *)
Inductive stat :=
  | Scalar (q : Q)
  | Vector (qs : list Q).

(** The samples of channel [k], one per cell. *)
Definition channel (k : nat) (cells : list cell) : list Q :=
  map (fun c : cell => nth k c 0%Q) cells.

(** The samples of channel [k] of a buffer, row after row. *)
Definition samples (k : nat) (v : buffer) : list Q := channel k (concat v).

Definition reduce (op : Q -> Q -> Q) (l : list Q) : option Q :=
  match l with
  | [] => None
  | x :: l' => Some (fold_left op l' x)
  end.

(** [a.max(axis=(0, 1))] and [a.min(axis=(0, 1))], with [op] the maximum or
    the minimum of two samples.  The reduction of an array without cells
    raises [ValueError]. *)
Definition reduce01 (op : Q -> Q -> Q) (a : ndarray) : M stat :=
  (v <- read a ;;
   match concat v with
   | [] => raise
   | c0 :: cs =>
       match nd_chan a with
       | None => ret (Scalar (fold_left op (channel 0 cs) (nth 0 c0 0%Q)))
       | Some n =>
           ret (Vector (map (fun k => fold_left op (channel k cs) (nth k c0 0%Q))
                            (seq 0 n)))
       end
   end)%M.

(** [x - y] on the results of two reductions of one array; operands of
    different shapes do not arise here and are refused. *)
Definition stat_sub (x y : stat) : M stat :=
  match x, y with
  | Scalar a, Scalar b => ret (Scalar (a - b)%Q)
  | Vector l, Vector l' =>
      if decide (length l = length l') then ret (Vector (zip_with Qminus l l'))
      else raise
  | _, _ => raise
  end.

(** The row-wise action of [a op= operand] under NumPy's broadcasting: the
    operand is aligned with the last axis of [a], an axis of length 1 is
    stretched, any other mismatch raises. *)
Definition broadcast (op : Q -> Q -> Q) (a : ndarray) (operand : stat)
  : option (list cell -> list cell) :=
  match operand with
  | Scalar s => Some (map (map (fun x => op x s)))
  | Vector l =>
      match nd_chan a with
      | Some n =>
          if decide (length l = n) then
            Some (map (fun c : cell => zip_with op c l))
          else if decide (length l = 1%nat) then
            Some (map (map (fun x => op x (nth 0 l 0%Q))))
          else None
      | None =>
          if decide (length l = 1%nat) then
            Some (map (map (fun x => op x (nth 0 l 0%Q))))
          else if decide (length l = nd_width a) then
            Some (fun row => zip_with (fun (c : cell) s => map (fun x => op x s) c) row l)
          else None
      end
  end.

(** The buffer after the cells of the window of [a] were rewritten row by
    row with [f]; the cells outside the window stay. *)
Definition update_window (a : ndarray) (f : list cell -> list cell)
    (b : buffer) : buffer :=
  take (nd_row0 a) b ++
  map (fun row => take (nd_col0 a) row ++
                  f (take (nd_width a) (drop (nd_col0 a) row)) ++
                  drop (nd_col0 a + nd_width a) row)
      (take (nd_height a) (drop (nd_row0 a) b)) ++
  drop (nd_row0 a + nd_height a) b.

(** [a op= operand]: the samples are written into the buffer of [a]. *)
Definition inplace (op : Q -> Q -> Q) (a : ndarray) (operand : stat) : M unit :=
  fun st =>
    match heap st !! nd_base a with
    | Some b =>
        if decide (fits a b) then
          match broadcast op a operand with
          | Some f =>
              Some (tt, {| heap := <[nd_base a := update_window a f b]> (heap st);
                           out := out st |})
          | None => None
          end
        else None
    | None => None
    end.

(** ** PIL images and the collaborators *)

(** A PIL image, seen as the spec sees the argument of its enhancement
    primitives: a buffer of samples with its shape. *)
Record pil_image := PilImage {
  pil_height : nat;
  pil_width : nat;
  pil_chan : option nat;
  pil_data : buffer
}.

(** Modelled from the spec: [Image.pil] of [mathics.builtin.image.base],
    which is not part of the source at hand.  The primitives of the spec
    are "given a buffer": the PIL image holds the samples that the pixel
    array of the image shows. *)
Definition Image_pil (image : Image) : M pil_image :=
  (v <- read (pixels image) ;;
   ret {| pil_height := nd_height (pixels image);
          pil_width := nd_width (pixels image);
          pil_chan := nd_chan (pixels image);
          pil_data := v |})%M.

(** Modelled from the spec: [numpy.array(im)] on a PIL image, the converse
    of [Image.pil]: a new array on a new buffer that holds the samples of the
    PIL image ("returns a new buffer"). *)
Definition numpy_array (im : pil_image) : M ndarray :=
  (l <- alloc (pil_data im) ;;
   ret {| nd_base := l; nd_row0 := 0; nd_col0 := 0;
          nd_height := pil_height im; nd_width := pil_width im;
          nd_chan := pil_chan im |})%M.

(** What the module takes from outside and the source at hand does not
    define: the conversion [pixels_as_float] of [mathics.eval.image], the
    enhancers and the unsharp mask of PIL, and the builtins of the host
    that rules of this module rewrite to ([ImageConvolve], [BoxMatrix],
    ...). *)
Class Collaborators := {
  pixels_as_float : ndarray -> M ndarray;
  Color_enhance : pil_image -> Q -> pil_image;
  Brightness_enhance : pil_image -> Q -> pil_image;
  Contrast_enhance : pil_image -> Q -> pil_image;
  UnsharpMask_filter : Q -> pil_image -> pil_image;
  host_builtin : string -> list expr -> M (option expr)
}.

(** The pattern test [_?RealNumberQ]. *)
Definition RealNumberQ (e : expr) : bool :=
  match e with
  | EInteger _ | EReal _ => true
  | _ => false
  end.

(** The value of a number of the host language, floats being idealised as
    rationals. *)
Definition number (e : expr) : option Q :=
  match e with
  | EInteger z => Some (inject_Z z)
  | EReal q => Some q
  | _ => None
  end.

(** Modelled from the spec: [round_to_float] of the numbers of
    [mathics.core.atoms], which is not part of the source at hand.  "Inputs
    are real scalars": a number gives its value; anything else has no such
    method, and the call raises. *)
Definition round_to_float (e : expr) : M Q :=
  match number e with
  | Some q => ret q
  | None => raise
  end.

(** ** [Blur] *)

Module Blur.

(** [a / b] of the host language, [Times[a, Power[b, -1]]]. *)
Definition divide (a b : expr) : expr :=
  EApply "Times" [a; EApply "Power" [b; EInteger (-1)]].

Definition rules (args : list expr) : option expr :=
  match args with
  | [EImage image] =>
      (* Blur[image_Image] -> Blur[image, 2] *)
      Some (EApply "Blur" [EImage image; EInteger 2])
  | [EImage image; r] =>
      (* Blur[image_Image, r_?RealNumberQ] ->
         ImageConvolve[image, BoxMatrix[r] / Total[Flatten[BoxMatrix[r]]]] *)
      if RealNumberQ r then
        Some (EApply "ImageConvolve"
                [EImage image;
                 divide (EApply "BoxMatrix" [r])
                        (EApply "Total" [EApply "Flatten" [EApply "BoxMatrix" [r]]])])
      else None
  | _ => None
  end.

End Blur.

(** ** [ImageAdjust] *)

Module ImageAdjust.

Definition rules (args : list expr) : option expr :=
  match args with
  | [EImage image; ListExpression [c; b]] =>
      (* ImageAdjust[image_Image, {c_?RealNumberQ, b_?RealNumberQ}] ->
         ImageAdjust[image, {c, b, 1}] *)
      if RealNumberQ c && RealNumberQ b then
        Some (EApply "ImageAdjust"
                [EImage image; ListExpression [c; b; EInteger 1]])
      else None
  | [EImage image; c] =>
      (* ImageAdjust[image_Image, c_?RealNumberQ] ->
         ImageAdjust[image, {c, 0, 1}] *)
      if RealNumberQ c then
        Some (EApply "ImageAdjust"
                [EImage image; ListExpression [c; EInteger 0; EInteger 1]])
      else None
  | _ => None
  end.

(** [ImageAdjust[image_Image]] *)
Definition eval_auto `{Collaborators} (image : Image) : M (option expr) :=
  (pixels <- pixels_as_float (pixels image) ;;
   (* channel limits *)
   cmaxs <- reduce01 Qmax pixels ;;
   cmins <- reduce01 Qmin pixels ;;
   (* normalise channels *)
   scales <- stat_sub cmaxs cmins ;;
   let scales := match scales with
                 | Scalar s => [s]
                 | Vector l => l
                 end in
   let scales := map (fun s => if Qeq_bool s 0 then 1%Q else s) scales in
   inplace Qminus pixels cmins ;;
   inplace Qdiv pixels (Vector scales) ;;
   ret (Some (EImage (MkImage pixels (color_space image)))))%M.

(** [ImageAdjust[image_Image, {c_?RealNumberQ, b_?RealNumberQ, g_?RealNumberQ}]] *)
Definition eval_contrast_brightness_gamma `{Collaborators}
    (image : Image) (c b g : expr) : M (option expr) :=
  (im <- Image_pil image ;;
   (* gamma *)
   g <- round_to_float g ;;
   let im := if negb (Qeq_bool g 1) then Color_enhance im g else im in
   (* brightness *)
   b <- round_to_float b ;;
   let im := if negb (Qeq_bool b 0) then Brightness_enhance im (b + 1)%Q else im in
   (* contrast *)
   c <- round_to_float c ;;
   let im := if negb (Qeq_bool c 0) then Contrast_enhance im (c + 1)%Q else im in
   pixels <- numpy_array im ;;
   ret (Some (EImage (MkImage pixels (color_space image)))))%M.

(** The evaluation method that the arguments select, by the patterns of
    the docstrings. *)
Definition apply `{Collaborators} (args : list expr) : option (M (option expr)) :=
  match args with
  | [EImage image] => Some (eval_auto image)
  | [EImage image; ListExpression [c; b; g]] =>
      if RealNumberQ c && RealNumberQ b && RealNumberQ g then
        Some (eval_contrast_brightness_gamma image c b g)
      else None
  | _ => None
  end.

End ImageAdjust.

(** ** [ImagePartition] *)

Module ImagePartition.

Definition rules (args : list expr) : option expr :=
  match args with
  | [EImage i; EInteger s] =>
      (* ImagePartition[i_Image, s_Integer] -> ImagePartition[i, {s, s}] *)
      Some (EApply "ImagePartition"
              [EImage i; ListExpression [EInteger s; EInteger s]])
  | _ => None
  end.

(** The inner loop, lines 166-169: the tiles of the row of tiles [yi]. *)
Definition tiles_row (image : Image) (shape1 : nat) (py_w py_h yi : Z)
  : list Image :=
  fold_left
    (fun row xi =>
       let p := nd_slice (pixels image)
                  (yi * py_h) ((yi + 1) * py_h)
                  (xi * py_w) ((xi + 1) * py_w) in
       row ++ [MkImage p (color_space image)])
    (range (Z.of_nat shape1 / py_w)) [].

(** The outer loop, lines 164-171: a row of tiles is kept when it is not
    empty. *)
Definition tiles (image : Image) (shape0 shape1 : nat) (py_w py_h : Z)
  : list (list Image) :=
  fold_left
    (fun parts yi =>
       let row := tiles_row image shape1 py_w py_h yi in
       match row with
       | [] => parts
       | _ :: _ => parts ++ [row]
       end)
    (range (Z.of_nat shape0 / py_h)) [].

(** [ImagePartition[image_Image, {w_Integer, h_Integer}]] *)
Definition eval (image : Image) (w h : Z) : M (option expr) :=
  let py_w := w in
  let py_h := h in
  if (py_w <=? 0) || (py_h <=? 0) then
    evaluation_message "ImagePartition" "arg2"
      [ListExpression [EInteger w; EInteger h]]
  else
    match shape_at (pixels image) 0, shape_at (pixels image) 1 with
    | Some shape0, Some shape1 =>
        ret (Some (from_python (tiles image shape0 shape1 py_w py_h)))
    | _, _ => raise
    end.

Definition apply (args : list expr) : option (M (option expr)) :=
  match args with
  | [EImage image; ListExpression [EInteger w; EInteger h]] =>
      Some (eval image w h)
  | _ => None
  end.

End ImagePartition.

(** ** [Sharpen] *)

(** Modelled from the spec: [Image.filter] of [mathics.builtin.image.base],
    which is not part of the source at hand.  A filter "returns a new
    buffer" and the colour space is "carried through transforms unchanged":
    the function is applied to the PIL image, and the result becomes a new
    image with the colour space of the old one. *)
Definition Image_filter (image : Image) (f : pil_image -> pil_image)
  : M Image :=
  (im <- Image_pil image ;;
   pixels <- numpy_array (f im) ;;
   ret (MkImage pixels (color_space image)))%M.

Module Sharpen.

Definition rules (args : list expr) : option expr :=
  match args with
  | [EImage i] =>
      (* Sharpen[i_Image] -> Sharpen[i, 2] *)
      Some (EApply "Sharpen" [EImage i; EInteger 2])
  | _ => None
  end.

(** [Sharpen[image_Image, r_?RealNumberQ]] *)
Definition eval `{Collaborators} (image : Image) (r : expr) : M (option expr) :=
  (radius <- round_to_float r ;;
   let f := UnsharpMask_filter radius in
   result <- Image_filter image (fun im => f im) ;;
   ret (Some (EImage result)))%M.

Definition apply `{Collaborators} (args : list expr) : option (M (option expr)) :=
  match args with
  | [EImage image; r] =>
      if RealNumberQ r then Some (eval image r) else None
  | _ => None
  end.

End Sharpen.


(** ** The evaluation of a call by the host *)

(** The rewrite rules of the [rules] tables, by head. *)
Definition rewrite (head : string) (args : list expr) : option expr :=
  if String.eqb head "Blur" then Blur.rules args
  else if String.eqb head "ImageAdjust" then ImageAdjust.rules args
  else if String.eqb head "ImagePartition" then ImagePartition.rules args
  else if String.eqb head "Sharpen" then Sharpen.rules args
  else None.

(** The evaluation methods, by head. *)
Definition builtin `{Collaborators} (head : string) (args : list expr)
  : option (M (option expr)) :=
  if String.eqb head "ImageAdjust" then ImageAdjust.apply args
  else if String.eqb head "ImagePartition" then ImagePartition.apply args
  else if String.eqb head "Sharpen" then Sharpen.apply args
  else None.

(** The heads that this module defines. *)
Definition defined_here (head : string) : bool :=
  String.eqb head "Blur" || String.eqb head "ImageAdjust" ||
  String.eqb head "ImagePartition" || String.eqb head "Sharpen".

(** Modelled from the spec: the dispatch of the host evaluation
    environment, which is not part of the source at hand ("pattern-based
    rule dispatch", "host-language pattern rewriting").  A call whose
    arguments are values is rewritten while a rule of its head applies;
    then the evaluation method that matches is run, and a method that
    returns the Python value [None] leaves the call as it is.  A call with
    no rule and no method stays unevaluated; the calls of other heads are
    the host's.  The patterns of one head exclude each other, so the order
    in which they are tried does not matter.  [fuel] bounds the number of
    rewrites, and running out of it is reported like an exception; the
    rules of this module end after two rewrites, so that three units are
    enough for every call. *)
Fixpoint evaluate `{Collaborators} (fuel : nat) (e : expr) : M expr :=
  match fuel with
  | O => raise
  | S fuel' =>
      match e with
      | EApply head args =>
          match rewrite head args with
          | Some e' => evaluate fuel' e'
          | None =>
              match builtin head args with
              | Some method =>
                  (r <- method ;; ret (default e r))%M
              | None =>
                  if defined_here head then ret e
                  else (r <- host_builtin head args ;; ret (default e r))%M
              end
          end
      | _ => ret e
      end
  end.

(** ** Notions of the specification *)

(** The tile at row [yi] and column [xi] of a partition. *)
Definition tile_of (image : Image) (py_w py_h yi xi : Z) : Image :=
  MkImage (nd_slice (pixels image) (yi * py_h) ((yi + 1) * py_h)
                                   (xi * py_w) ((xi + 1) * py_w))
          (color_space image).

(** The sample of channel [k] at row [r] and column [c]. *)
Definition sample_at (v : buffer) (r c k : nat) : option Q :=
  x ← cell_at v r c; x !! k.



(** The limits of channel [k] over all cells of a buffer, and the scale
    that the levels are divided by: "[scale = cmax - cmin] per channel;
    where [scale == 0], force [scale = 1]". *)
Definition limit (op : Q -> Q -> Q) (k : nat) (v : buffer) : Q :=
  default 0%Q (reduce op (samples k v)).

Definition cmax (k : nat) (v : buffer) : Q := limit Qmax k v.

Definition cmin (k : nat) (v : buffer) : Q := limit Qmin k v.

Definition scale (k : nat) (v : buffer) : Q :=
  if Qeq_bool (cmax k v - cmin k v) 0 then 1%Q else (cmax k v - cmin k v)%Q.

(** "Output pixel per channel: [(value - cmin) / scale]". *)
Definition normalised (v : buffer) : buffer :=
  map (map (imap (fun k x => (x - cmin k v) / scale k v)%Q)) v.


(** Two array objects overlap in storage: they have the same base buffer
    and their windows have a cell in common. *)
Definition shares_storage (a a' : ndarray) : Prop :=
  nd_base a = nd_base a' /\
  (nd_row0 a < nd_row0 a' + nd_height a')%nat /\
  (nd_row0 a' < nd_row0 a + nd_height a)%nat /\
  (nd_col0 a < nd_col0 a' + nd_width a')%nat /\
  (nd_col0 a' < nd_col0 a + nd_width a)%nat.

#[global] Instance shares_storage_dec a a' : Decision (shares_storage a a').
Proof. unfold shares_storage. apply _. Defined.

#[global] Instance Qeq_decision (x y : Q) : Decision (x == y)%Q := Qeq_dec x y.

(** Channel [k] is constant: its samples are one number. *)
Definition constant_channel (k : nat) (v : buffer) : Prop :=
  Forall (fun x => Forall (fun y => x == y)%Q (samples k v)) (samples k v).

#[global] Instance constant_channel_dec k v : Decision (constant_channel k v).
Proof. unfold constant_channel. apply _. Defined.

(** What a reduction over the first two axes returns for an array that
    shows [v]. *)
Definition limits (op : Q -> Q -> Q) (a : ndarray) (v : buffer) : stat :=
  match nd_chan a with
  | None => Scalar (limit op 0 v)
  | Some n => Vector (map (fun k => limit op k v) (seq 0 n))
  end.


(** The steps of the parametric adjustment, in the words of the spec:
    "gamma, then brightness, then contrast", each "a no-op when its value
    equals the identity: gamma 1.0 is skipped, brightness 0.0 is skipped,
    contrast 0.0 is skipped", brightness and contrast with the factors
    [brightness + 1] and [contrast + 1]. *)
Inductive adjust_step :=
  | GammaStep (factor : Q)
  | BrightnessStep (factor : Q)
  | ContrastStep (factor : Q).

Definition adjust_steps (contrast brightness gamma : Q) : list adjust_step :=
  (if decide (gamma == 1)%Q then [] else [GammaStep gamma]) ++
  (if decide (brightness == 0)%Q then [] else [BrightnessStep (brightness + 1)%Q]) ++
  (if decide (contrast == 0)%Q then [] else [ContrastStep (contrast + 1)%Q]).

(** A step, done by the enhancer of PIL that the code uses for it. *)
Definition do_step `{Collaborators} (im : pil_image) (s : adjust_step)
  : pil_image :=
  match s with
  | GammaStep f => Color_enhance im f
  | BrightnessStep f => Brightness_enhance im f
  | ContrastStep f => Contrast_enhance im f
  end.

(** The PIL image of an array that shows [v]. *)
Definition pil_of (a : ndarray) (v : buffer) : pil_image :=
  {| pil_height := nd_height a; pil_width := nd_width a;
     pil_chan := nd_chan a; pil_data := v |}.

(** The array that [numpy.array] makes of a PIL image at the location
    [l]. *)
Definition array_of (l : loc) (im : pil_image) : ndarray :=
  {| nd_base := l; nd_row0 := 0; nd_col0 := 0;
     nd_height := pil_height im; nd_width := pil_width im;
     nd_chan := pil_chan im |}.

(** A call evaluates to [r]: some number of rewrites suffices. *)
Definition evaluates `{Collaborators} (e : expr) (st : state)
    (r : expr * state) : Prop :=
  exists fuel : nat, evaluate fuel e st = Some r.

(** Two calls give the same result: the same value and the same state, or
    no result for both. *)
Definition same_result `{Collaborators} (e e' : expr) : Prop :=
  forall (st : state) (r : expr * state),
    evaluates e st r <-> evaluates e' st r.

(** ** Sample data *)

(** A 2 x 3 array of rank 2 in a buffer of its own. *)
Definition sample_buffer : buffer :=
  [ [[1#1]; [3#1]; [5#1]];
    [[2#1]; [4#1]; [9#1]] ]%Q.

Definition sample_array : ndarray :=
  {| nd_base := 1%positive; nd_row0 := 0; nd_col0 := 0;
     nd_height := 2; nd_width := 3; nd_chan := None |}.

Definition sample_state : state :=
  {| heap := {[ 1%positive := sample_buffer ]}; out := [] |}.

Definition sample_image : Image := MkImage sample_array "Grayscale".

(** The image of the tests of the docstring: 512 x 512 pixels, three
    channels. *)
Definition lena : Image :=
  MkImage {| nd_base := 1%positive; nd_row0 := 0; nd_col0 := 0;
             nd_height := 512; nd_width := 512; nd_chan := Some 3%nat |}
          "RGB".

(** Collaborators for images that hold floats already: the conversion to
    floats hands back its argument, the primitives of PIL leave the image
    as it is, the host knows no other builtin. *)
Definition float_collaborators : Collaborators :=
  {| pixels_as_float := fun a => ret a;
     Color_enhance := fun im _ => im;
     Brightness_enhance := fun im _ => im;
     Contrast_enhance := fun im _ => im;
     UnsharpMask_filter := fun _ im => im;
     host_builtin := fun _ _ => ret None |}.

(** Collaborators that keep a record: each enhancer of PIL adds to the
    data of the image a row with one cell, the number of the enhancer (1
    for [Color], 2 for [Brightness], 3 for [Contrast]) and the factor it
    was called with. *)
Definition recording (tag : Q) (im : pil_image) (factor : Q) : pil_image :=
  {| pil_height := pil_height im; pil_width := pil_width im;
     pil_chan := pil_chan im;
     pil_data := pil_data im ++ [[[tag; factor]]] |}.

(** The row that the record holds for a step. *)
Definition step_record (s : adjust_step) : list cell :=
  match s with
  | GammaStep f => [[1; f]]
  | BrightnessStep f => [[2; f]]
  | ContrastStep f => [[3; f]]
  end%Q.

Definition recording_collaborators : Collaborators :=
  {| pixels_as_float := fun a => ret a;
     Color_enhance := recording 1;
     Brightness_enhance := recording 2;
     Contrast_enhance := recording 3;
     UnsharpMask_filter := fun _ im => im;
     host_builtin := fun _ _ => ret None |}.

(** ** Further notions *)

(** The cell at row [r] and column [c] of the array [a] lies in the
    window of the array [tile]. *)
Definition covers (a tile : ndarray) (r c : nat) : Prop :=
  nd_base tile = nd_base a /\
  (nd_row0 tile <= nd_row0 a + r < nd_row0 tile + nd_height tile)%nat /\
  (nd_col0 tile <= nd_col0 a + c < nd_col0 tile + nd_width tile)%nat.

(** An array without cells: two axes, the first or the second of length
    0. *)
Definition no_pixels : ndarray :=
  {| nd_base := 1%positive; nd_row0 := 0; nd_col0 := 0;
     nd_height := 0; nd_width := 3; nd_chan := None |}.



(** The cell at row [r] and column [c] of the base buffer of [a] lies in
    the window of [a]. *)
Definition in_window (a : ndarray) (r c : nat) : Prop :=
  (nd_row0 a <= r < nd_row0 a + nd_height a)%nat /\
  (nd_col0 a <= c < nd_col0 a + nd_width a)%nat.

(** The second row of the sample image as an array of its own: a view,
    as [ImagePartition] makes them. *)
Definition sample_row : ndarray :=
  {| nd_base := 1%positive; nd_row0 := 1; nd_col0 := 0;
     nd_height := 1; nd_width := 3; nd_chan := None |}.

(** The kernel of [Blur] for the radius [r]:
    [BoxMatrix[r] / Total[Flatten[BoxMatrix[r]]]]. *)
Definition blur_kernel (r : expr) : expr :=
  Blur.divide (EApply "BoxMatrix" [r])
    (EApply "Total" [EApply "Flatten" [EApply "BoxMatrix" [r]]]).

(** The sample array as an array of rank 3 with one channel, on the same
    buffer. *)
Definition sample_array_1 : ndarray :=
  {| nd_base := 1%positive; nd_row0 := 0; nd_col0 := 0;
     nd_height := 2; nd_width := 3; nd_chan := Some 1%nat |}.

(** * Properties *)

(** ** Ranges and slices *)

Lemma length_range n : length (range n) = Z.to_nat n.
Proof. unfold range. by rewrite length_map, length_seq. Qed.

Lemma lookup_range n (i : nat) :
  (i < Z.to_nat n)%nat -> range n !! i = Some (Z.of_nat i).
Proof.
  intros Hi. unfold range. rewrite list_lookup_fmap.
  by rewrite lookup_seq_lt.
Qed.

Lemma slice_indices_inside (len : nat) (start stop : Z) :
  0 <= start <= stop -> stop <= Z.of_nat len ->
  slice_indices len start stop = (Z.to_nat start, Z.to_nat (stop - start)).
Proof.
  intros [H0 H1] H2. unfold slice_indices, slice_bound.
  destruct (Z.ltb_spec start 0), (Z.ltb_spec stop 0); try lia.
  by rewrite !Z.min_l by lia.
Qed.

(** ** Windows *)

Lemma take_drop_take {A} (n k m : nat) (l : list A) :
  (k + n <= m)%nat -> take n (drop k (take m l)) = take n (drop k l).
Proof.
  intros H. rewrite skipn_firstn_comm, take_take.
  f_equal. lia.
Qed.

Lemma take_drop_fmap {A B} (f : A -> B) (n k : nat) (l : list A) :
  take n (drop k (f <$> l)) = f <$> take n (drop k l).
Proof. by rewrite <- fmap_drop, <- fmap_take. Qed.

(** The window of a slice is the corresponding block of the window of the
    array that was sliced. *)
Lemma window_nd_slice (a : ndarray) (b : buffer) (r0 r1 c0 c1 : Z) :
  0 <= r0 <= r1 -> r1 <= Z.of_nat (nd_height a) ->
  0 <= c0 <= c1 -> c1 <= Z.of_nat (nd_width a) ->
  window (nd_slice a r0 r1 c0 c1) b =
  (fun row => take (Z.to_nat (c1 - c0)) (drop (Z.to_nat c0) row)) <$>
    take (Z.to_nat (r1 - r0)) (drop (Z.to_nat r0) (window a b)).
Proof.
  intros Hr0 Hr1 Hc0 Hc1. unfold nd_slice.
  rewrite !slice_indices_inside by lia.
  unfold window; simpl.
  rewrite take_drop_fmap, take_drop_take by lia.
  rewrite drop_drop, <- list_fmap_compose.
  apply list_fmap_ext. intros _ row _. simpl.
  rewrite take_drop_take by lia. by rewrite drop_drop.
Qed.

Lemma rect_block (h w c : nat) (v : buffer) (i n j m : nat) :
  rect h w c v -> (i + n <= h)%nat -> (j + m <= w)%nat ->
  rect n m c ((fun row => take m (drop j row)) <$> take n (drop i v)).
Proof.
  intros [Hlen Hrows] Hi Hj. split.
  - rewrite length_fmap, length_take, length_drop. lia.
  - apply Forall_fmap, Forall_take, Forall_drop.
    eapply Forall_impl; [exact Hrows|].
    intros row [Hw Hcells]. simpl. split.
    + rewrite length_take, length_drop. lia.
    + by apply Forall_take, Forall_drop.
Qed.

Lemma cell_at_block (v : buffer) (i n j m r c : nat) :
  (r < n)%nat -> (c < m)%nat ->
  cell_at ((fun row => take m (drop j row)) <$> take n (drop i v)) r c =
  cell_at v (i + r) (j + c).
Proof.
  intros Hr Hc. unfold cell_at.
  rewrite list_lookup_fmap, lookup_take_lt, lookup_drop by done.
  destruct (v !! (i + r)%nat) as [row|]; simpl; [|done].
  by rewrite lookup_take_lt, lookup_drop.
Qed.

(** ** [ImagePartition] *)

Lemma fold_left_snoc {A B} (f : A -> B) (l : list A) (acc : list B) :
  fold_left (fun acc x => acc ++ [f x]) l acc = acc ++ (f <$> l).
Proof.
  revert acc. induction l as [|x l IH]; intros acc; simpl.
  - by rewrite app_nil_r.
  - rewrite IH. by rewrite <- app_assoc.
Qed.

Lemma fold_left_snoc_nonempty {A B} (f : A -> list B) (l : list A)
    (acc : list (list B)) :
  fold_left (fun parts x => match f x with
                            | [] => parts
                            | _ :: _ => parts ++ [f x]
                            end) l acc
  = acc ++ filter (fun row => row <> []) (f <$> l).
Proof.
  revert acc. induction l as [|x l IH]; intros acc; simpl.
  - by rewrite app_nil_r.
  - rewrite IH. destruct (f x) as [|y row] eqn:E.
    + by rewrite filter_cons_False by (intros H; by apply H).
    + rewrite filter_cons_True by done. by rewrite <- app_assoc.
Qed.

Lemma tiles_row_map image shape1 py_w py_h yi :
  ImagePartition.tiles_row image shape1 py_w py_h yi =
  tile_of image py_w py_h yi <$> range (Z.of_nat shape1 / py_w).
Proof. unfold ImagePartition.tiles_row. by rewrite fold_left_snoc. Qed.

Lemma length_tiles_row image shape1 py_w py_h yi :
  length (ImagePartition.tiles_row image shape1 py_w py_h yi) =
  Z.to_nat (Z.of_nat shape1 / py_w).
Proof. by rewrite tiles_row_map, length_fmap, length_range. Qed.

Lemma tiles_filter image shape0 shape1 py_w py_h :
  ImagePartition.tiles image shape0 shape1 py_w py_h =
  filter (fun row => row <> [])
    (ImagePartition.tiles_row image shape1 py_w py_h <$>
       range (Z.of_nat shape0 / py_h)).
Proof.
  unfold ImagePartition.tiles.
  by rewrite (fold_left_snoc_nonempty
                (ImagePartition.tiles_row image shape1 py_w py_h)).
Qed.

Lemma tiles_no_column image shape0 shape1 py_w py_h :
  Z.to_nat (Z.of_nat shape1 / py_w) = 0%nat ->
  ImagePartition.tiles image shape0 shape1 py_w py_h = [].
Proof.
  intros H0. rewrite tiles_filter.
  induction (range (Z.of_nat shape0 / py_h)) as [|yi l IH]; [done|].
  rewrite fmap_cons, filter_cons_False; [done|].
  intros Hne. apply Hne. apply length_zero_iff_nil.
  by rewrite length_tiles_row.
Qed.

Lemma tiles_some_column image shape0 shape1 py_w py_h :
  Z.to_nat (Z.of_nat shape1 / py_w) <> 0%nat ->
  ImagePartition.tiles image shape0 shape1 py_w py_h =
  ImagePartition.tiles_row image shape1 py_w py_h <$>
    range (Z.of_nat shape0 / py_h).
Proof.
  intros H0. rewrite tiles_filter.
  induction (range (Z.of_nat shape0 / py_h)) as [|yi l IH]; [done|].
  rewrite fmap_cons, filter_cons_True; [by rewrite IH|].
  intros Hnil. apply H0. by rewrite <- (length_tiles_row image _ _ py_h yi), Hnil.
Qed.

Lemma shape_at_0 a : shape_at a 0 = Some (nd_height a).
Proof. unfold shape_at, shape. by destruct (nd_chan a). Qed.

Lemma shape_at_1 a : shape_at a 1 = Some (nd_width a).
Proof. unfold shape_at, shape. by destruct (nd_chan a). Qed.

Lemma eval_valid image w h st :
  0 < w -> 0 < h ->
  ImagePartition.eval image w h st =
  Some (Some (from_python
    (ImagePartition.tiles image (nd_height (pixels image))
       (nd_width (pixels image)) w h)), st).
Proof.
  intros Hw Hh. unfold ImagePartition.eval.
  destruct (Z.leb_spec w 0), (Z.leb_spec h 0); try lia. simpl.
  by rewrite shape_at_0, shape_at_1.
Qed.

(** The tests of the docstring, on an image of 512 x 512 pixels. *)
Example partition_lena_256 :
  map length (ImagePartition.tiles lena 512 512 256 256) = [2; 2]%nat.
Proof. vm_compute. reflexivity. Qed.

Example partition_lena_512_128 :
  map length (ImagePartition.tiles lena 512 512 512 128) = [1; 1; 1; 1]%nat.
Proof. vm_compute. reflexivity. Qed.

Example partition_lena_257 :
  map length (ImagePartition.tiles lena 512 512 257 257) = [1]%nat.
Proof. vm_compute. reflexivity. Qed.

Example partition_lena_513 :
  ImagePartition.tiles lena 512 512 513 513 = [].
Proof. vm_compute. reflexivity. Qed.

Example partition_lena_256_300 :
  map length (ImagePartition.tiles lena 512 512 256 300) = [2]%nat.
Proof. vm_compute. reflexivity. Qed.

Example partition_lena_0_300 :
  ImagePartition.eval lena 0 300 {| heap := ∅; out := [] |} =
  Some (None,
        {| heap := ∅;
           out := [Message "ImagePartition" "arg2"
                     [ListExpression [EInteger 0; EInteger 300]]] |}).
Proof. reflexivity. Qed.

Example adjust_sample :
  exists st : state,
    @ImageAdjust.eval_auto float_collaborators sample_image sample_state =
      Some (Some (EImage sample_image), st) /\
    contents (heap st) sample_array =
      Some [ [[0 # 8]; [2 # 8]; [4 # 8]];
             [[1 # 8]; [3 # 8]; [8 # 8]] ]%Q.
Proof. eexists. split; vm_compute; reflexivity. Qed.

Lemma contents_Some h a v :
  contents h a = Some v <->
  exists b, h !! nd_base a = Some b /\ fits a b /\ v = window a b.
Proof.
  unfold contents. split.
  - intros H. destruct (h !! nd_base a) as [b|]; simpl in H; [|done].
    destruct (decide (fits a b)); [|done]. exists b. by inversion H.
  - intros (b & -> & Hfit & ->). simpl. by rewrite decide_True.
Qed.

Lemma nd_slice_inside a r0 r1 c0 c1 :
  0 <= r0 <= r1 -> r1 <= Z.of_nat (nd_height a) ->
  0 <= c0 <= c1 -> c1 <= Z.of_nat (nd_width a) ->
  nd_slice a r0 r1 c0 c1 =
  {| nd_base := nd_base a;
     nd_row0 := nd_row0 a + Z.to_nat r0; nd_col0 := nd_col0 a + Z.to_nat c0;
     nd_height := Z.to_nat (r1 - r0); nd_width := Z.to_nat (c1 - c0);
     nd_chan := nd_chan a |}.
Proof.
  intros. unfold nd_slice. by rewrite !slice_indices_inside by lia.
Qed.

(** A slice inside the bounds of an array shows the corresponding block of
    what the array shows. *)
Lemma contents_nd_slice h a v r0 r1 c0 c1 :
  contents h a = Some v ->
  0 <= r0 <= r1 -> r1 <= Z.of_nat (nd_height a) ->
  0 <= c0 <= c1 -> c1 <= Z.of_nat (nd_width a) ->
  contents h (nd_slice a r0 r1 c0 c1) =
  Some ((fun row => take (Z.to_nat (c1 - c0)) (drop (Z.to_nat c0) row)) <$>
          take (Z.to_nat (r1 - r0)) (drop (Z.to_nat r0) v)).
Proof.
  intros (b & Hb & Hfit & ->)%contents_Some Hr0 Hr1 Hc0 Hc1.
  apply contents_Some. exists b. split_and!.
  - by rewrite nd_slice_inside.
  - unfold fits. rewrite window_nd_slice by done.
    rewrite nd_slice_inside by done. simpl.
    eapply rect_block; [exact Hfit|lia|lia].
  - symmetry. by apply window_nd_slice.
Qed.

Lemma tile_bounds (n : nat) (d : Z) (i : nat) :
  0 < d -> (i < Z.to_nat (Z.of_nat n / d))%nat ->
  0 <= Z.of_nat i * d <= (Z.of_nat i + 1) * d /\
  (Z.of_nat i + 1) * d <= Z.of_nat n.
Proof.
  intros Hd Hi.
  assert (d * (Z.of_nat n / d) <= Z.of_nat n) by (apply Z.mul_div_le; lia).
  assert (0 <= Z.of_nat n / d) by (apply Z.div_pos; lia).
  nia.
Qed.

(** The tiles of a valid partition, whatever the number of columns. *)
Lemma tiles_lookup image w h i j row tile :
  ImagePartition.tiles image (nd_height (pixels image))
    (nd_width (pixels image)) w h !! i = Some row ->
  row !! j = Some tile ->
  (i < Z.to_nat (Z.of_nat (nd_height (pixels image)) / h))%nat /\
  (j < Z.to_nat (Z.of_nat (nd_width (pixels image)) / w))%nat /\
  tile = tile_of image w h (Z.of_nat i) (Z.of_nat j).
Proof.
  intros Hrow Htile.
  destruct (decide (Z.to_nat (Z.of_nat (nd_width (pixels image)) / w) = 0%nat))
    as [Hz|Hnz].
  - by rewrite tiles_no_column in Hrow.
  - rewrite tiles_some_column in Hrow by done.
    apply list_lookup_fmap_Some in Hrow as (yi & -> & Hyi).
    assert (i < Z.to_nat (Z.of_nat (nd_height (pixels image)) / h))%nat as Hi.
    { apply lookup_lt_Some in Hyi. by rewrite length_range in Hyi. }
    rewrite lookup_range in Hyi by done. injection Hyi as <-.
    rewrite tiles_row_map in Htile.
    apply list_lookup_fmap_Some in Htile as (xi & -> & Hxi).
    assert (j < Z.to_nat (Z.of_nat (nd_width (pixels image)) / w))%nat as Hj.
    { apply lookup_lt_Some in Hxi. by rewrite length_range in Hxi. }
    rewrite lookup_range in Hxi by done. by injection Hxi as <-.
Qed.

Lemma length_from_python grid grid' :
  from_python grid = from_python grid' -> length grid = length grid'.
Proof.
  unfold from_python. intros [= H].
  apply (f_equal length) in H. by rewrite !length_map in H.
Qed.

(** C1, as amended: for a valid size the call returns the grid of tiles
    and leaves the state as it is.  The grid has
    [floor(height / tileHeight)] rows, unless
    [floor(width / tileWidth)] is zero, in which case it has no row at
    all; every row has [floor(width / tileWidth)] tiles; the tile at row
    [i] and column [j] has the colour space and channels of the source,
    [tileHeight] rows of [tileWidth] cells, and its cell [(r, c)] is the
    cell [(i * tileHeight + r, j * tileWidth + c)] of the source. *)
Theorem partition_grid (st : state) (image : Image) (w h : Z) (v : buffer) :
  contents (heap st) (pixels image) = Some v ->
  0 < w -> 0 < h ->
  let rows := Z.to_nat (Z.of_nat (nd_height (pixels image)) / h) in
  let cols := Z.to_nat (Z.of_nat (nd_width (pixels image)) / w) in
  exists grid : list (list Image),
    ImagePartition.eval image w h st = Some (Some (from_python grid), st) /\
    length grid = (if decide (cols = 0%nat) then 0%nat else rows) /\
    Forall (fun row => length row = cols) grid /\
    forall (i j : nat) (row : list Image) (tile : Image),
      grid !! i = Some row -> row !! j = Some tile ->
      color_space tile = color_space image /\
      nd_chan (pixels tile) = nd_chan (pixels image) /\
      exists tv : buffer,
        contents (heap st) (pixels tile) = Some tv /\
        rect (Z.to_nat h) (Z.to_nat w) (cell_size (pixels image)) tv /\
        forall r c : nat, (r < Z.to_nat h)%nat -> (c < Z.to_nat w)%nat ->
          cell_at tv r c =
          cell_at v (i * Z.to_nat h + r) (j * Z.to_nat w + c).
Proof.
  intros Hv Hw Hh rows cols.
  exists (ImagePartition.tiles image (nd_height (pixels image))
            (nd_width (pixels image)) w h).
  split; [by apply eval_valid|]. split_and!.
  - destruct (decide (cols = 0%nat)) as [Hz|Hnz].
    + by rewrite tiles_no_column.
    + by rewrite tiles_some_column, length_fmap, length_range.
  - destruct (decide (cols = 0%nat)) as [Hz|Hnz].
    + by rewrite tiles_no_column.
    + rewrite tiles_some_column by done. apply Forall_fmap, Forall_forall.
      intros yi _. simpl. apply length_tiles_row.
  - intros i j row tile Hrow Htile.
    destruct (tiles_lookup _ _ _ _ _ _ _ Hrow Htile) as (Hi & Hj & ->).
    destruct (tile_bounds _ _ _ Hh Hi) as [Hr0 Hr1].
    destruct (tile_bounds _ _ _ Hw Hj) as [Hc0 Hc1].
    split; [done|]. split.
    { unfold tile_of. cbn [pixels]. by rewrite nd_slice_inside. }
    eexists. split; [by apply contents_nd_slice|].
    replace ((Z.of_nat i + 1) * h - Z.of_nat i * h) with h by lia.
    replace ((Z.of_nat j + 1) * w - Z.of_nat j * w) with w by lia.
    apply contents_Some in Hv as (b & _ & Hfit & ->).
    split.
    + eapply rect_block; [exact Hfit|lia|lia].
    + intros r c Hr Hc. rewrite cell_at_block by done.
      f_equal; lia.
Qed.

Lemma partition_grid_witness :
  exists grid : list (list Image),
    ImagePartition.eval sample_image 2 1 sample_state =
      Some (Some (from_python grid), sample_state) /\
    length grid = 2%nat /\
    Forall (fun row => length row = 1%nat) grid /\
    forall (i j : nat) (row : list Image) (tile : Image),
      grid !! i = Some row -> row !! j = Some tile ->
      color_space tile = "Grayscale" /\
      nd_chan (pixels tile) = None /\
      exists tv : buffer,
        contents (heap sample_state) (pixels tile) = Some tv /\
        rect 1 2 1 tv /\
        forall r c : nat, (r < 1)%nat -> (c < 2)%nat ->
          cell_at tv r c = cell_at sample_buffer (i * 1 + r) (j * 2 + c).
Proof.
  apply (partition_grid sample_state sample_image 2 1 sample_buffer);
    [vm_compute; reflexivity | lia | lia].
Defined.

(** C1, as stated, fails: a 2 x 3 image cut into tiles of width 4 and
    height 1 has [floor(2 / 1) = 2] and [floor(3 / 4) = 0], and the call
    returns the grid without rows, not two empty rows. *)
Lemma partition_grid_counterexample :
  ~ (forall (st : state) (image : Image) (w h : Z),
       0 < w -> 0 < h ->
       exists grid : list (list Image),
         ImagePartition.eval image w h st = Some (Some (from_python grid), st) /\
         length grid = Z.to_nat (Z.of_nat (nd_height (pixels image)) / h) /\
         Forall (fun row => length row =
                   Z.to_nat (Z.of_nat (nd_width (pixels image)) / w)) grid).
Proof.
  intros Hclaim.
  destruct (Hclaim sample_state sample_image 4 1) as (grid & Heval & Hlen & _);
    [lia | lia |].
  assert (ImagePartition.eval sample_image 4 1 sample_state =
          Some (Some (from_python []), sample_state)) as Hcode
    by (vm_compute; reflexivity).
  assert (from_python [] = from_python grid) as Hgrid by congruence.
  apply length_from_python in Hgrid. simpl in Hgrid.
  rewrite <- Hgrid in Hlen. vm_compute in Hlen. discriminate.
Qed.

(** C10: for a valid size no row of the grid is empty, and when
    [floor(width / tileWidth)] is zero the grid has no row, whatever
    [floor(height / tileHeight)] is. *)
Theorem partition_no_empty_row (st : state) (image : Image) (w h : Z) :
  0 < w -> 0 < h ->
  exists grid : list (list Image),
    ImagePartition.eval image w h st = Some (Some (from_python grid), st) /\
    Forall (fun row => row <> []) grid /\
    (Z.of_nat (nd_width (pixels image)) / w = 0 -> grid = []).
Proof.
  intros Hw Hh. eexists. split; [by apply eval_valid|]. split.
  - rewrite tiles_filter. apply Forall_forall.
    by intros row [Hne _]%list_elem_of_filter.
  - intros H0. apply tiles_no_column. by rewrite H0.
Qed.

Lemma partition_no_empty_row_witness :
  exists grid : list (list Image),
    ImagePartition.eval sample_image 4 1 sample_state =
      Some (Some (from_python grid), sample_state) /\
    Forall (fun row => row <> []) grid /\
    (Z.of_nat (nd_width (pixels sample_image)) / 4 = 0 -> grid = []).
Proof.
  apply (partition_no_empty_row sample_state sample_image 4 1); lia.
Defined.

(** C3: the call reports the message [arg2] exactly when the width or the
    height of the tile is not positive.  The message carries the pair
    [{w, h}]; the method returns no value, so that the host returns the
    call as it was written; nothing is raised; and the heap, hence the
    buffer of the image, is as before.  For a valid size the method returns
    a grid and reports nothing. *)
Theorem partition_invalid_size `{Collaborators}
    (st : state) (image : Image) (w h : Z) :
  let size := ListExpression [EInteger w; EInteger h] in
  let call := EApply "ImagePartition" [EImage image; size] in
  let reported :=
    {| heap := heap st;
       out := out st ++ [Message "ImagePartition" "arg2" [size]] |} in
  ((w <= 0 \/ h <= 0) <->
     ImagePartition.eval image w h st = Some (None, reported)) /\
  ((w <= 0 \/ h <= 0) <->
     forall fuel, evaluate (S fuel) call st = Some (call, reported)) /\
  (~ (w <= 0 \/ h <= 0) <->
     exists grid, ImagePartition.eval image w h st =
                  Some (Some (from_python grid), st)).
Proof.
  intros size call reported.
  assert (forall fuel, evaluate (S fuel) call st =
            match ImagePartition.eval image w h st with
            | Some (r, st') => Some (default call r, st')
            | None => None
            end) as Hcall.
  { intros fuel. simpl. unfold bind.
    by destruct (ImagePartition.eval image w h st) as [[r st']|]. }
  destruct (decide (w <= 0 \/ h <= 0)) as [Hbad|Hgood].
  - assert (ImagePartition.eval image w h st = Some (None, reported)) as Heval.
    { unfold ImagePartition.eval.
      destruct (Z.leb_spec w 0), (Z.leb_spec h 0); try lia; done. }
    split_and!; split; try done.
    + intros _ fuel. by rewrite Hcall, Heval.
    + intros (grid & Hgrid). congruence.
  - assert (exists grid, ImagePartition.eval image w h st =
                         Some (Some (from_python grid), st)) as [grid Heval].
    { eexists. apply eval_valid; lia. }
    split_and!; split; try done.
    + congruence.
    + intros Hfuel. specialize (Hfuel 0%nat).
      rewrite Hcall, Heval in Hfuel. simpl in Hfuel. discriminate.
    + intros _. by exists grid.
Qed.

Lemma partition_invalid_size_witness :
  let size := ListExpression [EInteger 0; EInteger 300] in
  let call := EApply "ImagePartition" [EImage sample_image; size] in
  @evaluate float_collaborators 1 call sample_state =
  Some (call, {| heap := heap sample_state;
                 out := [Message "ImagePartition" "arg2" [size]] |}).
Proof.
  apply (proj1 (proj1 (proj2 (@partition_invalid_size float_collaborators
           sample_state sample_image 0 300)))).
  left. lia.
Defined.

(** ** In-place updates *)

Lemma take_drop_splice {A} (l m : list A) (k n : nat) :
  length m = n -> length (take n (drop k l)) = n ->
  take n (drop k (take k l ++ m ++ drop (k + n) l)) = m.
Proof.
  intros Hm Hl. destruct n as [|n].
  - destruct m; [|done]. by rewrite take_0.
  - rewrite length_take, length_drop in Hl.
    rewrite drop_app_length' by (rewrite length_take; lia).
    by rewrite take_app_length'.
Qed.

Lemma window_update (a : ndarray) (f : list cell -> list cell) (b : buffer) :
  fits a b -> (forall row, length (f row) = length row) ->
  window a (update_window a f b) = f <$> window a b.
Proof.
  intros [Hlen Hrows] Hf. unfold window in *. unfold update_window.
  rewrite length_fmap in Hlen.
  rewrite take_drop_splice; [|by rewrite length_map|done].
  rewrite <- !list_fmap_compose.
  apply Forall_fmap_ext_1. apply Forall_fmap in Hrows.
  eapply Forall_impl; [exact Hrows|].
  intros row [Hw _]; simpl in *.
  apply take_drop_splice; [by rewrite Hf|done].
Qed.

Lemma fits_update (a : ndarray) (f : list cell -> list cell) (b : buffer) :
  fits a b ->
  (forall row, length (f row) = length row) ->
  (forall row, Forall (fun x : cell => length x = cell_size a) row ->
               Forall (fun x : cell => length x = cell_size a) (f row)) ->
  fits a (update_window a f b).
Proof.
  intros Hfit Hf Hcells. unfold fits. rewrite window_update by done.
  destruct Hfit as [Hlen Hrows]. split.
  - by rewrite length_fmap.
  - apply Forall_fmap. eapply Forall_impl; [exact Hrows|].
    intros row [Hw Hc]; simpl. split; [by rewrite Hf|by apply Hcells].
Qed.

(** ** Running [ImageAdjust.eval_auto] *)

Lemma read_run (a : ndarray) (st : state) (v : buffer) :
  contents (heap st) a = Some v -> read a st = Some (v, st).
Proof. intros Hv. unfold read. by rewrite Hv. Qed.

Lemma reduce01_run (op : Q -> Q -> Q) (a : ndarray) (st : state) (v : buffer) :
  contents (heap st) a = Some v -> concat v <> [] ->
  reduce01 op a st = Some (limits op a v, st).
Proof.
  intros Hv Hne. unfold reduce01, bind. rewrite (read_run _ _ _ Hv).
  unfold limits, limit, samples.
  destruct (concat v) as [|c0 cs]; [done|].
  by destruct (nd_chan a).
Qed.

Lemma inplace_run (op : Q -> Q -> Q) (a : ndarray) (operand : stat)
    (st : state) (b : buffer) (f : list cell -> list cell) :
  heap st !! nd_base a = Some b -> fits a b ->
  broadcast op a operand = Some f ->
  inplace op a operand st =
  Some (tt, {| heap := <[nd_base a := update_window a f b]> (heap st);
               out := out st |}).
Proof.
  intros Hb Hfit Hf. unfold inplace. by rewrite Hb, decide_True, Hf.
Qed.

Lemma zip_with_seq {A B} (op : A -> B -> A) (g : nat -> B) (c : list A) (j : nat) :
  zip_with op c (map g (seq j (length c))) =
  imap (fun k x => op x (g (j + k)%nat)) c.
Proof.
  revert j. induction c as [|x c IH]; intros j; [done|].
  simpl. rewrite Nat.add_0_r. f_equal.
  rewrite IH. apply imap_ext. intros k y _. simpl. f_equal. f_equal. lia.
Qed.

Lemma imap_imap {A B C} (f : nat -> A -> B) (g : nat -> B -> C) (l : list A) :
  imap g (imap f l) = imap (fun k x => g k (f k x)) l.
Proof.
  revert f g. induction l as [|x l IH]; intros f g; [done|].
  simpl. f_equal. apply IH.
Qed.

(** The scales after the zeros were replaced, for an array of rank 3. *)
Lemma scales_vector (n : nat) (v : buffer) :
  map (fun s => if Qeq_bool s 0 then 1%Q else s)
      (zip_with Qminus (map (fun k => limit Qmax k v) (seq 0 n))
                       (map (fun k => limit Qmin k v) (seq 0 n)))
  = map (fun k => scale k v) (seq 0 n).
Proof.
  change (map ?f ?l) with (f <$> l).
  rewrite zip_with_fmap_l, zip_with_fmap_r, zip_with_diag.
  rewrite <- !list_fmap_compose. done.
Qed.

(** The two in-place steps on one cell of [n] samples. *)
Lemma normalise_cell (n : nat) (v : buffer) (c : cell) :
  length c = n ->
  zip_with Qdiv
    (zip_with Qminus c (map (fun k => limit Qmin k v) (seq 0 n)))
    (map (fun k => scale k v) (seq 0 n))
  = imap (fun k x => (x - cmin k v) / scale k v)%Q c.
Proof.
  intros <-. rewrite zip_with_seq.
  replace (length c)
    with (length (imap (fun k x => (x - limit Qmin (0 + k) v)%Q) c))
    by apply length_imap.
  rewrite zip_with_seq, imap_imap. done.
Qed.

Lemma rect_cells_ext (h w n : nat) (v : buffer) (f g : cell -> cell) :
  rect h w n v ->
  (forall c : cell, length c = n -> f c = g c) ->
  map (map f) v = map (map g) v.
Proof.
  intros [_ Hrows] Hfg.
  apply Forall_fmap_ext_1. eapply Forall_impl; [exact Hrows|].
  intros row [_ Hcells]; simpl.
  apply Forall_fmap_ext_1. eapply Forall_impl; [exact Hcells|].
  intros c Hc; simpl. by apply Hfg.
Qed.

(** The two steps of [eval_auto] that write: [pixels -= cmins] and
    [pixels /= scales]. *)
Lemma inplace_normalise (p : ndarray) (st : state) (b : buffer) :
  heap st !! nd_base p = Some b -> fits p b ->
  let v := window p b in
  let scales :=
    map (fun s => if Qeq_bool s 0 then 1%Q else s)
        match limits Qmax p v, limits Qmin p v with
        | Scalar x, Scalar y => [(x - y)%Q]
        | Vector l, Vector l' => zip_with Qminus l l'
        | _, _ => []
        end in
  exists b2 : buffer,
    bind (inplace Qminus p (limits Qmin p v))
         (fun _ => inplace Qdiv p (Vector scales)) st =
    Some (tt, {| heap := <[nd_base p := b2]> (heap st); out := out st |}) /\
    fits p b2 /\ window p b2 = normalised v.
Proof.
  intros Hb Hfit v scales.
  assert (exists f1 f2 : list cell -> list cell,
    broadcast Qminus p (limits Qmin p v) = Some f1 /\
    broadcast Qdiv p (Vector scales) = Some f2 /\
    (forall row, length (f1 row) = length row) /\
    (forall row, length (f2 row) = length row) /\
    (forall row, Forall (fun x : cell => length x = cell_size p) row ->
                 Forall (fun x : cell => length x = cell_size p) (f1 row)) /\
    (forall row, Forall (fun x : cell => length x = cell_size p) row ->
                 Forall (fun x : cell => length x = cell_size p) (f2 row)) /\
    f2 <$> (f1 <$> v) = normalised v) as (f1 & f2 & Hf1 & Hf2 & Hl1 & Hl2 & Hc1 & Hc2 & Hn).
  { subst scales. unfold limits, broadcast, cell_size in *.
    unfold fits, cell_size in Hfit. fold v in Hfit.
    destruct (nd_chan p) as [n|]; simpl in *.
    - rewrite scales_vector.
      rewrite !decide_True by (by rewrite length_map, length_seq).
      eexists _, _. split_and!; try done.
      + intros row. by rewrite length_map.
      + intros row. by rewrite length_map.
      + intros row Hrow. apply Forall_fmap. eapply Forall_impl; [exact Hrow|].
        intros c Hc; simpl in *.
        rewrite length_zip_with, length_map, length_seq. lia.
      + intros row Hrow. apply Forall_fmap. eapply Forall_impl; [exact Hrow|].
        intros c Hc; simpl in *.
        rewrite length_zip_with, length_map, length_seq. lia.
      + rewrite <- list_fmap_compose. unfold normalised.
        etrans; [apply list_fmap_ext; intros i row _; apply map_map|].
        eapply rect_cells_ext; [exact Hfit|].
        intros c Hc. by apply normalise_cell.
    - eexists _, _. split_and!; try done.
      + intros row. by rewrite length_map.
      + intros row. by rewrite length_map.
      + intros row Hrow. apply Forall_fmap. eapply Forall_impl; [exact Hrow|].
        intros c Hc; simpl. by rewrite length_map.
      + intros row Hrow. apply Forall_fmap. eapply Forall_impl; [exact Hrow|].
        intros c Hc; simpl. by rewrite length_map.
      + rewrite <- list_fmap_compose. unfold normalised.
        etrans; [apply list_fmap_ext; intros i row _; apply map_map|].
        eapply rect_cells_ext; [exact Hfit|].
        intros [|x [|y c]] Hc; try done. }
  exists (update_window p f2 (update_window p f1 b)).
  unfold bind. rewrite (inplace_run _ _ _ _ b f1) by done.
  erewrite inplace_run; [| apply lookup_insert_eq | by apply fits_update | done ].
  simpl. rewrite insert_insert_eq. split_and!; try done.
  - apply fits_update; [by apply fits_update|done|done].
  - rewrite !window_update; [done|done|done|by apply fits_update|done].
Qed.

(** [eval_auto] on a float array with at least one cell: the result is the
    array that [pixels_as_float] returned, its buffer rewritten in place
    with the normalised samples; no other buffer of the heap changes. *)
Lemma eval_auto_run `{Collaborators} (image : Image) (st st1 : state)
    (p : ndarray) (v : buffer) :
  pixels_as_float (pixels image) st = Some (p, st1) ->
  contents (heap st1) p = Some v -> concat v <> [] ->
  exists b2 : buffer,
    ImageAdjust.eval_auto image st =
      Some (Some (EImage (MkImage p (color_space image))),
            {| heap := <[nd_base p := b2]> (heap st1); out := out st1 |}) /\
    contents (<[nd_base p := b2]> (heap st1)) p = Some (normalised v).
Proof.
  intros Hfloat Hv Hne.
  pose proof Hv as (b & Hb & Hfit & ->)%contents_Some.
  destruct (inplace_normalise p st1 b Hb Hfit) as (b2 & Hrun & Hfit2 & Hwin).
  exists b2. split.
  - unfold ImageAdjust.eval_auto, bind at 1. rewrite Hfloat.
    unfold bind at 1. rewrite (reduce01_run _ _ _ _ Hv Hne).
    unfold bind at 1. rewrite (reduce01_run _ _ _ _ Hv Hne).
    unfold bind in Hrun |- *.
    unfold limits in *. destruct (nd_chan p) as [n|]; simpl in *.
    + rewrite decide_True by (by rewrite !length_map).
      simpl. destruct (inplace Qminus p _ st1) as [[[] st2]|]; [|done].
      by rewrite Hrun.
    + destruct (inplace Qminus p _ st1) as [[[] st2]|]; [|done].
      by rewrite Hrun.
  - apply contents_Some. exists b2. by rewrite lookup_insert_eq.
Qed.

(** ** Channel limits *)









Lemma sample_at_normalised (v : buffer) (r c k : nat) :
  sample_at (normalised v) r c k =
  (fun x => (x - cmin k v) / scale k v)%Q <$> sample_at v r c k.
Proof.
  unfold sample_at, cell_at, normalised.
  change (map ?f ?l) with (f <$> l). rewrite list_lookup_fmap.
  destruct (v !! r) as [row|]; simpl; [|done].
  change (map ?f ?l) with (f <$> l). rewrite list_lookup_fmap.
  destruct (row !! c) as [cl|]; simpl; [|done].
  apply list_lookup_imap.
Qed.

Lemma rect_concat_nonempty (h w n : nat) (v : buffer) :
  rect h w n v -> (0 < h)%nat -> (0 < w)%nat -> concat v <> [].
Proof.
  intros [Hlen Hrows] Hh Hw.
  destruct v as [|row v]; simpl in *; [lia|].
  apply Forall_cons in Hrows as [[Hrow _] _].
  destruct row; simpl in *; [lia|done].
Qed.

Lemma contents_rect (hp : gmap loc buffer) (a : ndarray) (v : buffer) :
  contents hp a = Some v ->
  rect (nd_height a) (nd_width a) (cell_size a) v.
Proof. by intros (b & _ & Hfit & ->)%contents_Some. Qed.

(** ** Normalised levels *)














(** ** The parametric adjustment *)

Lemma round_to_float_run (e : expr) (q : Q) (st : state) :
  number e = Some q -> round_to_float e st = Some (q, st).
Proof. intros Hq. unfold round_to_float. by rewrite Hq. Qed.

Lemma Qeq_bool_decide (x y : Q) :
  Qeq_bool x y = bool_decide (x == y)%Q.
Proof.
  destruct (Qeq_bool x y) eqn:E.
  - apply Qeq_bool_iff in E. by rewrite bool_decide_eq_true_2.
  - apply Qeq_bool_neq in E. by rewrite bool_decide_eq_false_2.
Qed.

(** The run of the parametric adjustment on numbers. *)
Lemma eval_contrast_brightness_gamma_run `{Collaborators}
    (image : Image) (c b g : expr) (contrast brightness gamma : Q)
    (st : state) (v : buffer) :
  contents (heap st) (pixels image) = Some v ->
  number c = Some contrast ->
  number b = Some brightness ->
  number g = Some gamma ->
  let im := fold_left do_step (adjust_steps contrast brightness gamma)
              (pil_of (pixels image) v) in
  let l := fresh (dom (heap st)) in
  ImageAdjust.eval_contrast_brightness_gamma image c b g st =
  Some (Some (EImage (MkImage (array_of l im) (color_space image))),
        {| heap := <[l := pil_data im]> (heap st); out := out st |}).
Proof.
  intros Hv Hc Hb Hg im l. subst im l.
  unfold ImageAdjust.eval_contrast_brightness_gamma, Image_pil.
  unfold bind at 1. unfold bind at 1. rewrite (read_run _ _ _ Hv).
  unfold ret at 1.
  unfold bind at 1. rewrite (round_to_float_run _ _ _ Hg).
  unfold bind at 1. rewrite (round_to_float_run _ _ _ Hb).
  unfold bind at 1. rewrite (round_to_float_run _ _ _ Hc).
  unfold adjust_steps. rewrite !Qeq_bool_decide.
  fold (pil_of (pixels image) v).
  destruct (decide (gamma == 1)%Q) as [Eg|Eg];
    [rewrite (bool_decide_eq_true_2 _ Eg)|rewrite (bool_decide_eq_false_2 _ Eg)];
  (destruct (decide (brightness == 0)%Q) as [Eb|Eb];
    [rewrite (bool_decide_eq_true_2 _ Eb)|rewrite (bool_decide_eq_false_2 _ Eb)]);
  (destruct (decide (contrast == 0)%Q) as [Ec|Ec];
    [rewrite (bool_decide_eq_true_2 _ Ec)|rewrite (bool_decide_eq_false_2 _ Ec)]);
  reflexivity.
Qed.


(** C6: the parametric adjustment is the conversion to a PIL image, then
    the steps of the spec in their order (gamma with the factor [gamma]
    unless [gamma] is 1, then brightness with the factor [brightness + 1]
    unless [brightness] is 0, then contrast with the factor [contrast + 1]
    unless [contrast] is 0), each done by its enhancer, then the conversion
    back to an array on a new buffer, under the colour space of the
    input. *)
Theorem adjust_steps_in_order `{Collaborators}
    (image : Image) (c b g : expr) (contrast brightness gamma : Q)
    (st : state) (v : buffer) :
  contents (heap st) (pixels image) = Some v ->
  number c = Some contrast ->
  number b = Some brightness ->
  number g = Some gamma ->
  let im := fold_left do_step (adjust_steps contrast brightness gamma)
              (pil_of (pixels image) v) in
  let l := fresh (dom (heap st)) in
  ImageAdjust.eval_contrast_brightness_gamma image c b g st =
  Some (Some (EImage (MkImage (array_of l im) (color_space image))),
        {| heap := <[l := pil_data im]> (heap st); out := out st |}).
Proof. apply eval_contrast_brightness_gamma_run. Qed.

Lemma adjust_steps_in_order_witness :
  @ImageAdjust.eval_contrast_brightness_gamma recording_collaborators
    sample_image (EReal (1 # 2)) (EInteger 0) (EInteger 2) sample_state =
  Some (Some (EImage (MkImage (array_of 2%positive
                                 (pil_of sample_array sample_buffer))
                              "Grayscale")),
        {| heap := <[2%positive :=
                       sample_buffer ++ [ [[1; 2]]; [[3; 3 # 2]] ]%Q]>
                     (heap sample_state);
           out := [] |}).
Proof.
  apply (@adjust_steps_in_order recording_collaborators sample_image
           (EReal (1 # 2)) (EInteger 0) (EInteger 2)
           (1 # 2) (inject_Z 0) (inject_Z 2) sample_state sample_buffer);
    [vm_compute; reflexivity | reflexivity | reflexivity | reflexivity].
Defined.

(** With the recording collaborators the data of the result lists the
    steps that were done, in the order in which they were done. *)
Lemma recording_steps (steps : list adjust_step) (im : pil_image) :
  pil_data (fold_left (@do_step recording_collaborators) steps im) =
  pil_data im ++ (step_record <$> steps).
Proof.
  revert im. induction steps as [|s steps IH]; intros im; simpl.
  - by rewrite app_nil_r.
  - rewrite IH. destruct s; simpl; by rewrite <- app_assoc.
Qed.

Lemma window_full (l : loc) (h w : nat) (ch : option nat) (n : nat) (v : buffer) :
  rect h w n v -> window (Ndarray l 0 0 h w ch) v = v.
Proof.
  intros [Hlen Hrows]. unfold window; simpl.
  change (drop 0 v) with v. rewrite take_ge by lia.
  rewrite <- (list_fmap_id v) at 2. apply Forall_fmap_ext_1.
  eapply Forall_impl; [exact Hrows|]. intros row [Hw _]; simpl in *.
  change (drop 0 row) with row. apply take_ge. lia.
Qed.

(** C7: with contrast 0, brightness 0 and gamma 1 no enhancer is called:
    the result is an image with the colour space and the shape of the
    input, on an array that shows the samples of the input; the input
    shows its samples as before. *)
Theorem adjust_identity `{Collaborators}
    (image : Image) (c b g : expr) (contrast brightness gamma : Q)
    (st : state) (v : buffer) :
  contents (heap st) (pixels image) = Some v ->
  number c = Some contrast -> (contrast == 0)%Q ->
  number b = Some brightness -> (brightness == 0)%Q ->
  number g = Some gamma -> (gamma == 1)%Q ->
  adjust_steps contrast brightness gamma = [] /\
  exists (a : ndarray) (st' : state),
    ImageAdjust.eval_contrast_brightness_gamma image c b g st =
      Some (Some (EImage (MkImage a (color_space image))), st') /\
    shape a = shape (pixels image) /\
    contents (heap st') a = Some v /\
    contents (heap st') (pixels image) = Some v.
Proof.
  intros Hv Hc Hc0 Hb Hb0 Hg Hg1.
  assert (adjust_steps contrast brightness gamma = []) as Hsteps.
  { unfold adjust_steps. by rewrite !decide_True. }
  split; [exact Hsteps|].
  pose proof (eval_contrast_brightness_gamma_run image c b g _ _ _ st v
                Hv Hc Hb Hg) as Hrun.
  rewrite Hsteps in Hrun. simpl in Hrun.
  eexists _, _. split; [exact Hrun|].
  pose proof (contents_rect _ _ _ Hv) as Hrect.
  pose proof Hv as (b0 & Hb0' & Hfit & Hwin)%contents_Some.
  split_and!.
  - done.
  - apply contents_Some. exists v.
    assert (window (array_of (fresh (dom (heap st))) (pil_of (pixels image) v)) v
            = v) as Hfull by apply (window_full _ _ _ _ _ _ Hrect).
    split_and!.
    + apply lookup_insert_eq.
    + unfold fits. rewrite Hfull. exact Hrect.
    + by rewrite Hfull.
  - apply contents_Some. exists b0. split_and!; [|done|done].
    cbn [heap]. rewrite lookup_insert_ne; [done|].
    intros Heq. apply (elem_of_dom_2 (heap st)) in Hb0'.
    rewrite <- Heq in Hb0'. by apply is_fresh in Hb0'.
Qed.

Lemma adjust_identity_witness :
  exists (a : ndarray) (st' : state),
    @ImageAdjust.eval_contrast_brightness_gamma float_collaborators
      sample_image (EInteger 0) (EInteger 0) (EInteger 1) sample_state =
      Some (Some (EImage (MkImage a "Grayscale")), st') /\
    shape a = [2; 3]%nat /\
    contents (heap st') a = Some sample_buffer /\
    contents (heap st') sample_array = Some sample_buffer.
Proof.
  apply (@adjust_identity float_collaborators sample_image
           (EInteger 0) (EInteger 0) (EInteger 1)
           (inject_Z 0) (inject_Z 0) (inject_Z 1) sample_state sample_buffer);
    [vm_compute; reflexivity | reflexivity | reflexivity | reflexivity
    | reflexivity | reflexivity | reflexivity].
Defined.

(** ** Storage *)


Lemma sharpen_run `{Collaborators} (image : Image) (r : expr) (radius : Q)
    (st : state) (v : buffer) :
  contents (heap st) (pixels image) = Some v ->
  number r = Some radius ->
  let im := UnsharpMask_filter radius (pil_of (pixels image) v) in
  let l := fresh (dom (heap st)) in
  Sharpen.eval image r st =
  Some (Some (EImage (MkImage (array_of l im) (color_space image))),
        {| heap := <[l := pil_data im]> (heap st); out := out st |}).
Proof.
  intros Hv Hr im l. subst im l.
  unfold Sharpen.eval, Image_filter, Image_pil.
  unfold bind at 1. rewrite (round_to_float_run _ _ _ Hr).
  unfold bind at 1. unfold bind at 1. unfold bind at 1.
  by rewrite (read_run _ _ _ Hv).
Qed.






(** ** Rewrite rules *)

Lemma evaluate_rewrite `{Collaborators} (head : string) (args : list expr)
    (e' : expr) (fuel : nat) (st : state) :
  rewrite head args = Some e' ->
  evaluate (S fuel) (EApply head args) st = evaluate fuel e' st.
Proof. intros Hrule. simpl. by rewrite Hrule. Qed.

Lemma same_result_rewrite `{Collaborators} (head : string) (args : list expr)
    (e' : expr) :
  rewrite head args = Some e' -> same_result (EApply head args) e'.
Proof.
  intros Hrule st r. split; intros [fuel Hfuel].
  - destruct fuel as [|fuel]; [done|].
    rewrite (evaluate_rewrite _ _ _ _ _ Hrule) in Hfuel. by exists fuel.
  - exists (S fuel). by rewrite (evaluate_rewrite _ _ _ _ _ Hrule).
Qed.

(** C8: the short forms are rewritten to the long ones and so give their
    results: [ImagePartition[image, s]] that of
    [ImagePartition[image, {s, s}]], [ImageAdjust[image, c]] for a real
    number [c] that of [ImageAdjust[image, {c, 0, 1}]], and [Blur[image]]
    and [Sharpen[image]] those of [Blur[image, 2]] and
    [Sharpen[image, 2]]. *)
Theorem convenience_forms `{Collaborators} (image : Image) (s : Z) (c : expr) :
  RealNumberQ c = true ->
  same_result
    (EApply "ImagePartition" [EImage image; EInteger s])
    (EApply "ImagePartition"
       [EImage image; ListExpression [EInteger s; EInteger s]]) /\
  same_result
    (EApply "ImageAdjust" [EImage image; c])
    (EApply "ImageAdjust"
       [EImage image; ListExpression [c; EInteger 0; EInteger 1]]) /\
  same_result
    (EApply "Blur" [EImage image])
    (EApply "Blur" [EImage image; EInteger 2]) /\
  same_result
    (EApply "Sharpen" [EImage image])
    (EApply "Sharpen" [EImage image; EInteger 2]).
Proof.
  intros Hc. split_and!; apply same_result_rewrite; try reflexivity.
  by destruct c.
Qed.

Lemma convenience_forms_witness :
  @same_result float_collaborators
    (EApply "ImagePartition" [EImage sample_image; EInteger 2])
    (EApply "ImagePartition"
       [EImage sample_image; ListExpression [EInteger 2; EInteger 2]]) /\
  @same_result float_collaborators
    (EApply "ImageAdjust" [EImage sample_image; EReal (1 # 2)])
    (EApply "ImageAdjust"
       [EImage sample_image;
        ListExpression [EReal (1 # 2); EInteger 0; EInteger 1]]) /\
  @same_result float_collaborators
    (EApply "Blur" [EImage sample_image])
    (EApply "Blur" [EImage sample_image; EInteger 2]) /\
  @same_result float_collaborators
    (EApply "Sharpen" [EImage sample_image])
    (EApply "Sharpen" [EImage sample_image; EInteger 2]).
Proof.
  apply (@convenience_forms float_collaborators sample_image 2 (EReal (1 # 2))).
  reflexivity.
Defined.

(** ** Fuel *)

(** What a rule of this module rewrites a call to. *)
Lemma rewrite_Some (head : string) (args : list expr) (e' : expr) :
  rewrite head args = Some e' ->
  (exists image, e' = EApply "Blur" [EImage image; EInteger 2]) \/
  (exists args', e' = EApply "ImageConvolve" args') \/
  (exists image c b g,
     e' = EApply "ImageAdjust" [EImage image; ListExpression [c; b; g]]) \/
  (exists image w h,
     e' = EApply "ImagePartition" [EImage image; ListExpression [w; h]]) \/
  (exists image, e' = EApply "Sharpen" [EImage image; EInteger 2]).
Proof.
  unfold rewrite. intros Hrule.
  destruct (String.eqb head "Blur").
  { unfold Blur.rules in Hrule.
    destruct args as [|[] [|r [|]]]; try discriminate.
    - injection Hrule as <-. left. eauto.
    - destruct (RealNumberQ r); [|discriminate].
      injection Hrule as <-. right; left. eauto. }
  destruct (String.eqb head "ImageAdjust").
  { unfold ImageAdjust.rules in Hrule.
    destruct args as [|[] [|c [|]]]; try discriminate;
      [|destruct c as [| | | |[|? [|? [|]]]|]; discriminate].
    destruct c as [z|q|s|im'|[|c [|b [|]]]|h a]; simpl in Hrule;
      try discriminate;
      try (injection Hrule as <-; right; right; left; eauto).
    destruct (RealNumberQ c && RealNumberQ b); [|discriminate].
    injection Hrule as <-; right; right; left; eauto. }
  destruct (String.eqb head "ImagePartition").
  { unfold ImagePartition.rules in Hrule.
    destruct args as [|[] [|[] [|]]]; try discriminate.
    injection Hrule as <-. right; right; right; left. eauto. }
  destruct (String.eqb head "Sharpen"); [|discriminate].
  unfold Sharpen.rules in Hrule.
  destruct args as [|[] [|]]; try discriminate.
  injection Hrule as <-. right; right; right; right. eauto.
Qed.

Lemma rewrite_ends (h h1 h2 : string) (a a1 a2 : list expr) :
  rewrite h a = Some (EApply h1 a1) ->
  rewrite h1 a1 = Some (EApply h2 a2) ->
  rewrite h2 a2 = None.
Proof.
  intros H1 H2.
  apply rewrite_Some in H1 as
    [(image & H1)|[(args' & H1)|[(image & c & b & g & H1)|
     [(image & w' & h' & H1)|(image & H1)]]]];
    injection H1 as -> ->.
  - vm_compute in H2. injection H2 as <- <-. reflexivity.
  - discriminate H2.
  - vm_compute in H2. discriminate H2.
  - exfalso. unfold rewrite in H2. simpl in H2. by destruct w'.
  - discriminate H2.
Qed.

(** The rules of this module end after two rewrites: three units of fuel
    are enough for every call, and more fuel changes nothing. *)
Lemma evaluate_enough_fuel `{Collaborators} (fuel : nat) (e : expr) (st : state) :
  evaluate (3 + fuel) e st = evaluate 3 e st.
Proof.
  destruct e as [| | | |items|h a]; try reflexivity.
  cbn [Nat.add evaluate].
  destruct (rewrite h a) as [e1|] eqn:E1; [|reflexivity].
  destruct (rewrite_Some _ _ _ E1) as
    [(? & ->)|[(? & ->)|[(? & ? & ? & ? & ->)|[(? & ? & ? & ->)|(? & ->)]]]].
  all: match goal with
       | |- context [rewrite ?h1 ?a1] =>
           destruct (rewrite h1 a1) as [e2|] eqn:E2; [|reflexivity]
       end.
  all: pose proof (rewrite_Some _ _ _ E2) as
         [(? & ->)|[(? & ->)|[(? & ? & ? & ? & ->)|[(? & ? & ? & ->)|(? & ->)]]]].
  all: by rewrite (rewrite_ends _ _ _ _ _ _ E1 E2).
Qed.

(** * Further properties *)

(** ** The tiles of [ImagePartition] *)

Lemma tile_window (image : Image) (w h : Z) (i j : nat) :
  0 < w -> 0 < h ->
  (i < Z.to_nat (Z.of_nat (nd_height (pixels image)) / h))%nat ->
  (j < Z.to_nat (Z.of_nat (nd_width (pixels image)) / w))%nat ->
  pixels (tile_of image w h (Z.of_nat i) (Z.of_nat j)) =
  {| nd_base := nd_base (pixels image);
     nd_row0 := nd_row0 (pixels image) + i * Z.to_nat h;
     nd_col0 := nd_col0 (pixels image) + j * Z.to_nat w;
     nd_height := Z.to_nat h; nd_width := Z.to_nat w;
     nd_chan := nd_chan (pixels image) |}.
Proof.
  intros Hw Hh Hi Hj.
  destruct (tile_bounds _ _ _ Hh Hi) as [Hr0 Hr1].
  destruct (tile_bounds _ _ _ Hw Hj) as [Hc0 Hc1].
  unfold tile_of. cbn [pixels]. rewrite nd_slice_inside by done.
  rewrite !Z2Nat.inj_mul, !Nat2Z.id by lia.
  f_equal; f_equal; lia.
Qed.

Lemma rows_bound (n : nat) (d : Z) :
  0 < d -> (Z.to_nat (Z.of_nat n / d) * Z.to_nat d <= n)%nat.
Proof.
  intros Hd.
  assert (d * (Z.of_nat n / d) <= Z.of_nat n) by (apply Z.mul_div_le; lia).
  assert (0 <= Z.of_nat n / d) by (apply Z.div_pos; lia).
  nia.
Qed.

Lemma tiles_lookup_block (image : Image) (w h : Z) (r c : nat) :
  0 < w -> 0 < h ->
  (r < Z.to_nat (Z.of_nat (nd_height (pixels image)) / h) * Z.to_nat h)%nat ->
  (c < Z.to_nat (Z.of_nat (nd_width (pixels image)) / w) * Z.to_nat w)%nat ->
  let i := (r / Z.to_nat h)%nat in
  let j := (c / Z.to_nat w)%nat in
  (i < Z.to_nat (Z.of_nat (nd_height (pixels image)) / h))%nat /\
  (j < Z.to_nat (Z.of_nat (nd_width (pixels image)) / w))%nat /\
  exists row : list Image,
    ImagePartition.tiles image (nd_height (pixels image))
      (nd_width (pixels image)) w h !! i = Some row /\
    row !! j = Some (tile_of image w h (Z.of_nat i) (Z.of_nat j)).
Proof.
  intros Hw Hh Hr Hc i j.
  assert (i < Z.to_nat (Z.of_nat (nd_height (pixels image)) / h))%nat as Hi.
  { apply Nat.Div0.div_lt_upper_bound; lia. }
  assert (j < Z.to_nat (Z.of_nat (nd_width (pixels image)) / w))%nat as Hj.
  { apply Nat.Div0.div_lt_upper_bound; lia. }
  split; [done|]. split; [done|].
  rewrite tiles_some_column by lia.
  eexists. split.
  - by rewrite list_lookup_fmap, lookup_range.
  - by rewrite tiles_row_map, list_lookup_fmap, lookup_range.
Qed.

(** X1: the tiles of a valid partition cover the block of the first
    [rows * tileHeight] rows and [cols * tileWidth] columns of the image
    exactly once: the cell [(r, c)] of that block lies in the tile at row
    [r / tileHeight] and column [c / tileWidth] of the grid, and a cell
    that lies in the tile at [(i, j)] is a cell of the block with
    [i = r / tileHeight] and [j = c / tileWidth]; the cells of the
    remainder strips lie in no tile. *)
Theorem partition_exact_cover (st : state) (image : Image) (w h : Z) :
  0 < w -> 0 < h ->
  let hn := Z.to_nat h in
  let wn := Z.to_nat w in
  let rows := Z.to_nat (Z.of_nat (nd_height (pixels image)) / h) in
  let cols := Z.to_nat (Z.of_nat (nd_width (pixels image)) / w) in
  exists grid : list (list Image),
    ImagePartition.eval image w h st = Some (Some (from_python grid), st) /\
    (forall r c : nat,
       (r < rows * hn)%nat -> (c < cols * wn)%nat ->
       exists (row : list Image) (tile : Image),
         grid !! (r / hn)%nat = Some row /\ row !! (c / wn)%nat = Some tile /\
         covers (pixels image) (pixels tile) r c) /\
    (forall (i j : nat) (row : list Image) (tile : Image) (r c : nat),
       grid !! i = Some row -> row !! j = Some tile ->
       covers (pixels image) (pixels tile) r c ->
       i = (r / hn)%nat /\ j = (c / wn)%nat /\
       (r < rows * hn)%nat /\ (c < cols * wn)%nat).
Proof.
  intros Hw Hh hn wn rows cols.
  eexists. split; [by apply eval_valid|]. split.
  - intros r c Hr Hc.
    destruct (tiles_lookup_block image w h r c Hw Hh Hr Hc)
      as (Hi & Hj & row & Hrow & Htile).
    exists row, (tile_of image w h (Z.of_nat (r / hn)) (Z.of_nat (c / wn))).
    split; [done|]. split; [done|].
    rewrite tile_window by done. unfold covers; simpl.
    pose proof (Nat.div_mod_eq r hn). pose proof (Nat.div_mod_eq c wn).
    assert (r mod hn < hn)%nat by (apply Nat.mod_upper_bound; lia).
    assert (c mod wn < wn)%nat by (apply Nat.mod_upper_bound; lia).
    split_and!; [done|nia..].
  - intros i j row tile r c Hrow Htile Hcov.
    destruct (tiles_lookup _ _ _ _ _ _ _ Hrow Htile) as (Hi & Hj & ->).
    rewrite tile_window in Hcov by done.
    destruct Hcov as (_ & [Hr0 Hr1] & [Hc0 Hc1]); simpl in *.
    fold hn wn rows cols in Hi, Hj, Hr0, Hr1, Hc0, Hc1.
    split_and!.
    + apply (Nat.div_unique r hn i (r - i * hn)); lia.
    + apply (Nat.div_unique c wn j (c - j * wn)); lia.
    + nia.
    + nia.
Qed.

Lemma partition_exact_cover_witness :
  exists grid : list (list Image),
    ImagePartition.eval sample_image 2 1 sample_state =
      Some (Some (from_python grid), sample_state) /\
    (forall r c : nat,
       (r < 2)%nat -> (c < 2)%nat ->
       exists (row : list Image) (tile : Image),
         grid !! (r / 1)%nat = Some row /\ row !! (c / 2)%nat = Some tile /\
         covers sample_array (pixels tile) r c) /\
    (forall (i j : nat) (row : list Image) (tile : Image) (r c : nat),
       grid !! i = Some row -> row !! j = Some tile ->
       covers sample_array (pixels tile) r c ->
       i = (r / 1)%nat /\ j = (c / 2)%nat /\ (r < 2)%nat /\ (c < 2)%nat).
Proof.
  apply (partition_exact_cover sample_state sample_image 2 1); lia.
Defined.

(** X2: the block that the tiles cover can be read back from them: with
    [v] the samples of the image, the cell [(r, c)] of the block is the
    cell [(r mod tileHeight, c mod tileWidth)] of the tile at row
    [r / tileHeight] and column [c / tileWidth]. *)
Theorem partition_read_back (st : state) (image : Image) (w h : Z) (v : buffer) :
  contents (heap st) (pixels image) = Some v ->
  0 < w -> 0 < h ->
  let hn := Z.to_nat h in
  let wn := Z.to_nat w in
  let rows := Z.to_nat (Z.of_nat (nd_height (pixels image)) / h) in
  let cols := Z.to_nat (Z.of_nat (nd_width (pixels image)) / w) in
  exists grid : list (list Image),
    ImagePartition.eval image w h st = Some (Some (from_python grid), st) /\
    forall r c : nat,
      (r < rows * hn)%nat -> (c < cols * wn)%nat ->
      exists (row : list Image) (tile : Image) (tv : buffer),
        grid !! (r / hn)%nat = Some row /\ row !! (c / wn)%nat = Some tile /\
        contents (heap st) (pixels tile) = Some tv /\
        cell_at tv (r mod hn) (c mod wn) = cell_at v r c.
Proof.
  intros Hv Hw Hh hn wn rows cols. subst hn wn rows cols.
  eexists. split; [by apply eval_valid|].
  intros r c Hr Hc.
  destruct (tiles_lookup_block image w h r c Hw Hh Hr Hc)
    as (Hi & Hj & row & Hrow & Htile).
  destruct (tile_bounds _ _ _ Hh Hi) as [Hr0 Hr1].
  destruct (tile_bounds _ _ _ Hw Hj) as [Hc0 Hc1].
  eexists row, _, _. split; [done|]. split; [done|].
  unfold tile_of; cbn [pixels].
  split; [eapply contents_nd_slice; [exact Hv|done..]|].
  replace ((Z.of_nat (r / Z.to_nat h) + 1) * h - Z.of_nat (r / Z.to_nat h) * h)
    with h by lia.
  replace ((Z.of_nat (c / Z.to_nat w) + 1) * w - Z.of_nat (c / Z.to_nat w) * w)
    with w by lia.
  assert (r mod Z.to_nat h < Z.to_nat h)%nat
    by (apply Nat.mod_upper_bound; lia).
  assert (c mod Z.to_nat w < Z.to_nat w)%nat
    by (apply Nat.mod_upper_bound; lia).
  rewrite cell_at_block by done.
  rewrite !Z2Nat.inj_mul, !Nat2Z.id by lia.
  pose proof (Nat.div_mod_eq r (Z.to_nat h)).
  pose proof (Nat.div_mod_eq c (Z.to_nat w)).
  f_equal; lia.
Qed.

Lemma partition_read_back_witness :
  exists grid : list (list Image),
    ImagePartition.eval sample_image 2 1 sample_state =
      Some (Some (from_python grid), sample_state) /\
    forall r c : nat,
      (r < 2)%nat -> (c < 2)%nat ->
      exists (row : list Image) (tile : Image) (tv : buffer),
        grid !! (r / 1)%nat = Some row /\ row !! (c / 2)%nat = Some tile /\
        contents (heap sample_state) (pixels tile) = Some tv /\
        cell_at tv (r mod 1) (c mod 2) = cell_at sample_buffer r c.
Proof.
  apply (partition_read_back sample_state sample_image 2 1 sample_buffer);
    [vm_compute; reflexivity | lia | lia].
Defined.

Lemma quotient_zero (n : nat) (d : Z) :
  0 < d -> (Z.to_nat (Z.of_nat n / d) = 0%nat <-> Z.of_nat n < d).
Proof.
  intros Hd.
  assert (0 <= Z.of_nat n / d) by (apply Z.div_pos; lia).
  pose proof (Z.div_small_iff (Z.of_nat n) d). lia.
Qed.

Lemma range_1 : range 1 = [0].
Proof. reflexivity. Qed.

(** X3: cut into tiles of its own width and height, an image with at
    least one pixel gives the grid of one row with one tile, and that tile
    is the image itself, on the same array. *)
Theorem partition_whole_image (st : state) (image : Image) :
  (0 < nd_height (pixels image))%nat -> (0 < nd_width (pixels image))%nat ->
  ImagePartition.eval image (Z.of_nat (nd_width (pixels image)))
    (Z.of_nat (nd_height (pixels image))) st =
  Some (Some (ListExpression [ListExpression [EImage image]]), st).
Proof.
  intros Hh Hw. rewrite eval_valid by lia.
  rewrite tiles_some_column by (rewrite Z.div_same by lia; lia).
  rewrite Z.div_same, range_1 by lia.
  rewrite fmap_cons, fmap_nil, tiles_row_map.
  rewrite Z.div_same, range_1 by lia.
  rewrite fmap_cons, fmap_nil. unfold from_python, tile_of. simpl map.
  rewrite nd_slice_inside by lia.
  destruct image as [[base row0 col0 height width chan] cs]; simpl in *.
  replace (row0 + Z.to_nat (0 * Z.of_nat height))%nat with row0 by lia.
  replace (col0 + Z.to_nat (0 * Z.of_nat width))%nat with col0 by lia.
  replace (Z.to_nat ((0 + 1) * Z.of_nat height - 0 * Z.of_nat height))
    with height by lia.
  replace (Z.to_nat ((0 + 1) * Z.of_nat width - 0 * Z.of_nat width))
    with width by lia.
  reflexivity.
Qed.

Lemma partition_whole_image_witness :
  ImagePartition.eval sample_image 3 2 sample_state =
  Some (Some (ListExpression [ListExpression [EImage sample_image]]),
        sample_state).
Proof.
  apply (partition_whole_image sample_state sample_image); simpl; lia.
Defined.

(** X4: for a valid size the result is the empty list exactly when the
    tile is wider or taller than the image. *)
Theorem partition_empty_iff (st : state) (image : Image) (w h : Z) :
  0 < w -> 0 < h ->
  (ImagePartition.eval image w h st = Some (Some (ListExpression []), st) <->
   Z.of_nat (nd_width (pixels image)) < w \/
   Z.of_nat (nd_height (pixels image)) < h).
Proof.
  intros Hw Hh. rewrite eval_valid by done.
  rewrite <- (quotient_zero _ _ Hw), <- (quotient_zero _ _ Hh).
  destruct (decide (Z.to_nat (Z.of_nat (nd_width (pixels image)) / w) = 0%nat))
    as [Hc|Hc].
  - rewrite tiles_no_column by done. split; [by left|done].
  - rewrite tiles_some_column by done. split.
    + intros [= Hgrid]. right.
      apply (f_equal length) in Hgrid.
      by rewrite length_map, length_fmap, length_range in Hgrid.
    + intros [?|Hr]; [done|]. unfold range. by rewrite Hr.
Qed.

Lemma partition_empty_iff_witness :
  ImagePartition.eval sample_image 4 1 sample_state =
    Some (Some (ListExpression []), sample_state) <->
  Z.of_nat (nd_width sample_array) < 4 \/ Z.of_nat (nd_height sample_array) < 1.
Proof.
  apply (partition_empty_iff sample_state sample_image 4 1); lia.
Defined.

(** ** More on [ImageAdjust.eval_auto] *)

Lemma rect_no_cells (h w n : nat) (v : buffer) :
  rect h w n v -> (h = 0 \/ w = 0)%nat -> concat v = [].
Proof.
  intros [Hlen Hrows] [->| ->].
  - by destruct v.
  - apply concat_nil_Forall. eapply Forall_impl; [exact Hrows|].
    intros row [Hw _]; simpl in *. by destruct row.
Qed.

(** X5: the call has no guard for an image without pixels: when the
    float array has height 0 or width 0, the reduction [pixels.max] over
    the first two axes raises, and so does the call. *)
Theorem auto_normalize_no_pixels `{Collaborators}
    (image : Image) (st st1 : state) (p : ndarray) (v : buffer) :
  pixels_as_float (pixels image) st = Some (p, st1) ->
  contents (heap st1) p = Some v ->
  (nd_height p = 0 \/ nd_width p = 0)%nat ->
  ImageAdjust.eval_auto image st = None.
Proof.
  intros Hfloat Hv Hzero.
  pose proof (rect_no_cells _ _ _ _ (contents_rect _ _ _ Hv) Hzero) as Hnil.
  unfold ImageAdjust.eval_auto, bind at 1. rewrite Hfloat.
  unfold bind at 1, reduce01, bind at 1.
  by rewrite (read_run _ _ _ Hv), Hnil.
Qed.

Lemma auto_normalize_no_pixels_witness :
  @ImageAdjust.eval_auto float_collaborators (MkImage no_pixels "Grayscale")
    sample_state = None.
Proof.
  apply (@auto_normalize_no_pixels float_collaborators
           (MkImage no_pixels "Grayscale") sample_state sample_state
           no_pixels []);
    [reflexivity | vm_compute; reflexivity | left; reflexivity].
Defined.


















(** ** What [ImageAdjust.eval_auto] writes *)

Lemma bind_Some {A B} (m : M A) (k : A -> M B) (st : state) (r : B * state) :
  bind m k st = Some r ->
  exists (x : A) (st' : state), m st = Some (x, st') /\ k x st' = Some r.
Proof.
  unfold bind. destruct (m st) as [[x st']|]; [|done]. eauto.
Qed.

Lemma reduce01_state (op : Q -> Q -> Q) (a : ndarray) (st st' : state) (x : stat) :
  reduce01 op a st = Some (x, st') -> st' = st.
Proof.
  unfold reduce01. intros (v & st0 & Hread & Hrest)%bind_Some.
  unfold read in Hread.
  destruct (contents (heap st) a) as [v1|]; [|done].
  injection Hread as <- <-.
  destruct (concat v1); [done|].
  destruct (nd_chan a); by injection Hrest as _ <-.
Qed.

Lemma stat_sub_state (x y z : stat) (st st' : state) :
  stat_sub x y st = Some (z, st') -> st' = st.
Proof.
  unfold stat_sub. destruct x, y; try done.
  - by intros [= _ <-].
  - destruct (decide _); [|done]. by intros [= _ <-].
Qed.

Lemma inplace_Some (op : Q -> Q -> Q) (a : ndarray) (operand : stat)
    (st st' : state) (u : unit) :
  inplace op a operand st = Some (u, st') ->
  exists (b : buffer) (f : list cell -> list cell),
    heap st !! nd_base a = Some b /\ fits a b /\
    broadcast op a operand = Some f /\
    st' = {| heap := <[nd_base a := update_window a f b]> (heap st);
             out := out st |}.
Proof.
  unfold inplace. destruct (heap st !! nd_base a) as [b|]; [|done].
  destruct (decide (fits a b)) as [Hfit|]; [|done].
  destruct (broadcast op a operand) as [f|]; [|done].
  intros [= _ <-]. by exists b, f.
Qed.

Lemma broadcast_length (op : Q -> Q -> Q) (a : ndarray) (operand : stat)
    (f : list cell -> list cell) :
  broadcast op a operand = Some f ->
  forall row : list cell, length row = nd_width a -> length (f row) = length row.
Proof.
  unfold broadcast. intros Hf row Hrow.
  destruct operand as [s|l].
  - injection Hf as <-. by rewrite length_map.
  - destruct (nd_chan a) as [n|]; repeat case_decide; simplify_eq;
      rewrite ?length_map, ?length_zip_with; lia.
Qed.

Lemma lookup_splice_outside {A} (l m : list A) (k n i : nat) :
  length m = n -> length (take n (drop k l)) = n ->
  ~ (k <= i < k + n)%nat ->
  (take k l ++ m ++ drop (k + n) l) !! i = l !! i.
Proof.
  intros Hm Hl Hi. destruct n as [|n].
  - destruct m; [|done]. simpl. by rewrite Nat.add_0_r, take_drop.
  - rewrite length_take, length_drop in Hl.
    destruct (decide (i < k)%nat) as [Hlt|Hge].
    + rewrite lookup_app_l by (rewrite length_take; lia).
      by rewrite lookup_take_lt.
    + rewrite lookup_app_r by (rewrite length_take; lia).
      rewrite lookup_app_r by (rewrite length_take; lia).
      rewrite lookup_drop, length_take. f_equal. lia.
Qed.

Lemma lookup_splice_inside {A} (l : list A) (g : A -> A) (k n i : nat) :
  length (take n (drop k l)) = n -> (k <= i < k + n)%nat ->
  (take k l ++ (g <$> take n (drop k l)) ++ drop (k + n) l) !! i =
  g <$> l !! i.
Proof.
  intros Hl Hi. rewrite length_take, length_drop in Hl.
  rewrite lookup_app_r by (rewrite length_take; lia).
  rewrite lookup_app_l by (rewrite length_fmap, !length_take, length_drop; lia).
  rewrite list_lookup_fmap, lookup_take_lt, lookup_drop, length_take
    by (rewrite length_take; lia).
  do 2 f_equal. lia.
Qed.

(** An update through an array leaves the cells outside its window as
    they were. *)
Lemma update_window_outside (a : ndarray) (f : list cell -> list cell)
    (b : buffer) (r c : nat) :
  fits a b ->
  (forall row, length row = nd_width a -> length (f row) = length row) ->
  ~ in_window a r c ->
  cell_at (update_window a f b) r c = cell_at b r c.
Proof.
  intros [Hlen Hrows] Hf Hout. unfold window in *.
  rewrite length_fmap in Hlen. unfold cell_at, update_window.
  destruct (decide (nd_row0 a <= r < nd_row0 a + nd_height a)%nat) as [Hr|Hr].
  - change (map ?g ?l) with (g <$> l).
    rewrite (lookup_splice_inside b _ _ _ r Hlen Hr).
    destruct (b !! r) as [row|] eqn:Hrow; simpl; [|done].
    assert (length (take (nd_width a) (drop (nd_col0 a) row)) = nd_width a)
      as Hw.
    { rewrite Forall_fmap, Forall_forall in Hrows.
      apply (Hrows row). apply list_elem_of_lookup.
      exists (r - nd_row0 a)%nat.
      rewrite lookup_take_lt, lookup_drop by lia.
      rewrite <- Hrow. f_equal. lia. }
    apply lookup_splice_outside; [by rewrite Hf|done|].
    intros Hc. apply Hout. by split.
  - rewrite lookup_splice_outside; [done|by rewrite length_map|done|done].
Qed.

(** X9: whenever the call returns, it has written nothing but cells in
    the window of the array [p] that [pixels_as_float] gave: the messages
    and every other buffer of the heap are as before, and in the buffer of
    [p] every cell outside the window of [p] is as before.  For an array
    that is a view (a tile of [ImagePartition]), the rest of the image it
    was cut from stays as it was. *)
Theorem auto_normalize_writes_window `{Collaborators}
    (image : Image) (st st1 st2 : state) (p : ndarray) (result : option expr) :
  pixels_as_float (pixels image) st = Some (p, st1) ->
  ImageAdjust.eval_auto image st = Some (result, st2) ->
  out st2 = out st1 /\
  (forall l : loc, l <> nd_base p -> heap st2 !! l = heap st1 !! l) /\
  exists b b2 : buffer,
    heap st1 !! nd_base p = Some b /\
    heap st2 !! nd_base p = Some b2 /\
    forall r c : nat, ~ in_window p r c -> cell_at b2 r c = cell_at b r c.
Proof.
  intros Hfloat Hrun. unfold ImageAdjust.eval_auto in Hrun.
  apply bind_Some in Hrun as (p0 & st0 & Hf & Hrun).
  rewrite Hfloat in Hf. injection Hf as <- <-.
  apply bind_Some in Hrun as (cmaxs & sa & Hmax & Hrun).
  apply reduce01_state in Hmax as ->.
  apply bind_Some in Hrun as (cmins & sb & Hmin & Hrun).
  apply reduce01_state in Hmin as ->.
  apply bind_Some in Hrun as (scales & sc & Hsub & Hrun).
  apply stat_sub_state in Hsub as ->.
  apply bind_Some in Hrun as (u1 & sd & Hin1 & Hrun).
  apply inplace_Some in Hin1 as (b & f1 & Hb & Hfit & Hf1 & ->).
  apply bind_Some in Hrun as (u2 & se & Hin2 & Hrun).
  apply inplace_Some in Hin2 as (b1 & f2 & Hb1 & Hfit1 & Hf2 & ->).
  cbn [heap out] in *. rewrite lookup_insert_eq in Hb1. injection Hb1 as <-.
  injection Hrun as _ <-. cbn [heap out].
  split; [done|]. split.
  - intros l Hl. by rewrite !lookup_insert_ne.
  - exists b, (update_window p f2 (update_window p f1 b)).
    split; [done|]. split; [by rewrite lookup_insert_eq|].
    intros r c Hout.
    rewrite update_window_outside;
      [|done|by eapply broadcast_length|done].
    apply update_window_outside; [done|by eapply broadcast_length|done].
Qed.

Lemma auto_normalize_writes_window_witness :
  exists st2 : state,
    @ImageAdjust.eval_auto float_collaborators
      (MkImage sample_row "Grayscale") sample_state =
      Some (Some (EImage (MkImage sample_row "Grayscale")), st2) /\
    exists b2 : buffer,
      heap st2 !! 1%positive = Some b2 /\
      forall c : nat, cell_at b2 0 c = cell_at sample_buffer 0 c.
Proof.
  eexists. split; [vm_compute; reflexivity|].
  destruct (@auto_normalize_writes_window float_collaborators
              (MkImage sample_row "Grayscale") sample_state sample_state
              _ sample_row _ eq_refl ltac:(vm_compute; reflexivity))
    as (_ & _ & b & b2 & Hb & Hb2 & Hframe).
  exists b2. split; [exact Hb2|].
  assert (heap sample_state !! 1%positive = Some sample_buffer) as Hsample
    by reflexivity.
  change (heap sample_state !! 1%positive = Some b) in Hb.
  assert (b = sample_buffer) as -> by congruence.
  intros c. apply Hframe. unfold in_window; simpl. lia.
Defined.

(** X10: the call works in place: when [pixels_as_float] hands back the
    array of the image, as for an image that holds floats already, the
    image that was passed in is itself overwritten: the call returns that
    image, and afterwards it shows, for every sample [x], the number
    [(x - cmin) / scale]. *)
Theorem auto_normalize_overwrites `{Collaborators}
    (image : Image) (st : state) (v : buffer) :
  pixels_as_float (pixels image) st = Some (pixels image, st) ->
  contents (heap st) (pixels image) = Some v ->
  (0 < nd_height (pixels image))%nat -> (0 < nd_width (pixels image))%nat ->
  exists (st2 : state) (v' : buffer),
    ImageAdjust.eval_auto image st = Some (Some (EImage image), st2) /\
    contents (heap st2) (pixels image) = Some v' /\
    forall (r c k : nat) (x : Q),
      sample_at v r c k = Some x ->
      sample_at v' r c k = Some ((x - cmin k v) / scale k v)%Q.
Proof.
  intros Hfloat Hv Hh Hw.
  assert (concat v <> []) as Hne
    by (eapply rect_concat_nonempty; [by eapply contents_rect|done|done]).
  destruct (eval_auto_run image st st _ v Hfloat Hv Hne) as (b2 & Hrun & Hv').
  eexists _, (normalised v). split_and!.
  - rewrite Hrun. by destruct image.
  - exact Hv'.
  - intros r c k x Hx. by rewrite sample_at_normalised, Hx.
Qed.

Lemma auto_normalize_overwrites_witness :
  exists (st2 : state) (v' : buffer),
    @ImageAdjust.eval_auto float_collaborators sample_image sample_state =
      Some (Some (EImage sample_image), st2) /\
    contents (heap st2) sample_array = Some v' /\
    sample_at v' 1 2 0 =
      Some ((9 - cmin 0 sample_buffer) / scale 0 sample_buffer)%Q.
Proof.
  destruct (@auto_normalize_overwrites float_collaborators sample_image
              sample_state sample_buffer)
    as (st2 & v' & Hrun & Hv' & Hsamples);
    [reflexivity | vm_compute; reflexivity | simpl; lia | simpl; lia |].
  exists st2, v'. split; [exact Hrun|]. split; [exact Hv'|].
  by apply Hsamples.
Defined.

(** ** Calls *)

Lemma number_RealNumberQ (e : expr) (q : Q) :
  number e = Some q -> RealNumberQ e = true.
Proof. by destruct e. Qed.

Lemma evaluate_adjust `{Collaborators} (image : Image) (c b g : expr)
    (fuel : nat) (st : state) :
  RealNumberQ c = true -> RealNumberQ b = true -> RealNumberQ g = true ->
  evaluate (S fuel)
    (EApply "ImageAdjust" [EImage image; ListExpression [c; b; g]]) st =
  bind (ImageAdjust.eval_contrast_brightness_gamma image c b g)
    (fun r => ret (default
       (EApply "ImageAdjust" [EImage image; ListExpression [c; b; g]]) r)) st.
Proof.
  intros Hc Hb Hg.
  assert (rewrite "ImageAdjust" [EImage image; ListExpression [c; b; g]] = None)
    as Hrule by reflexivity.
  assert (builtin "ImageAdjust" [EImage image; ListExpression [c; b; g]] =
          Some (ImageAdjust.eval_contrast_brightness_gamma image c b g))
    as Hmethod.
  { unfold builtin. cbn [String.eqb]. simpl. unfold ImageAdjust.apply.
    by rewrite Hc, Hb, Hg. }
  cbn [evaluate]. by rewrite Hrule, Hmethod.
Qed.

(** X11: the short forms of [ImageAdjust] run the full method with the
    missing parameters at their identity values.  [ImageAdjust[image, c]]
    calls no enhancer but the one for contrast, with the factor [c + 1],
    and none at all when [c] is 0; [ImageAdjust[image, {c, b}]] calls the
    enhancer for brightness with [b + 1] unless [b] is 0, then the one for
    contrast with [c + 1] unless [c] is 0, and never the one for colour.
    Either way the result is an image on a new buffer, under the colour
    space of the input. *)
Theorem adjust_short_forms `{Collaborators}
    (image : Image) (c b : expr) (contrast brightness : Q)
    (st : state) (v : buffer) (fuel : nat) :
  contents (heap st) (pixels image) = Some v ->
  number c = Some contrast ->
  number b = Some brightness ->
  let l := fresh (dom (heap st)) in
  let im0 := pil_of (pixels image) v in
  let result (im : pil_image) :=
    Some (EImage (MkImage (array_of l im) (color_space image)),
          {| heap := <[l := pil_data im]> (heap st); out := out st |}) in
  evaluate (S (S fuel)) (EApply "ImageAdjust" [EImage image; c]) st =
    result (if decide (contrast == 0)%Q then im0
            else Contrast_enhance im0 (contrast + 1)%Q) /\
  evaluate (S (S fuel))
    (EApply "ImageAdjust" [EImage image; ListExpression [c; b]]) st =
    result (let im1 := if decide (brightness == 0)%Q then im0
                       else Brightness_enhance im0 (brightness + 1)%Q in
            if decide (contrast == 0)%Q then im1
            else Contrast_enhance im1 (contrast + 1)%Q).
Proof.
  intros Hv Hc Hb l im0 result. subst l im0 result.
  pose proof (number_RealNumberQ _ _ Hc) as Hrc.
  pose proof (number_RealNumberQ _ _ Hb) as Hrb.
  split.
  - rewrite (evaluate_rewrite "ImageAdjust" [EImage image; c]
               (EApply "ImageAdjust"
                  [EImage image; ListExpression [c; EInteger 0; EInteger 1]]))
      by (by destruct c).
    rewrite evaluate_adjust by done. unfold bind.
    rewrite (eval_contrast_brightness_gamma_run image c (EInteger 0)
               (EInteger 1) contrast (inject_Z 0) (inject_Z 1) st v)
      by done.
    unfold adjust_steps. rewrite !(decide_True (P := (inject_Z _ == _)%Q)) by done.
    by destruct (decide (contrast == 0)%Q).
  - rewrite (evaluate_rewrite "ImageAdjust"
               [EImage image; ListExpression [c; b]]
               (EApply "ImageAdjust"
                  [EImage image; ListExpression [c; b; EInteger 1]])).
    2: { unfold rewrite. cbn [String.eqb]. simpl.
         unfold ImageAdjust.rules. by rewrite Hrc, Hrb. }
    rewrite evaluate_adjust by done. unfold bind.
    rewrite (eval_contrast_brightness_gamma_run image c b
               (EInteger 1) contrast brightness (inject_Z 1) st v)
      by done.
    unfold adjust_steps. rewrite (decide_True (P := (inject_Z 1 == 1)%Q)) by done.
    by destruct (decide (brightness == 0)%Q), (decide (contrast == 0)%Q).
Qed.

Lemma adjust_short_forms_witness :
  @evaluate recording_collaborators 2
    (EApply "ImageAdjust" [EImage sample_image; EReal (1 # 2)]) sample_state =
    Some (EImage (MkImage (array_of 2%positive
                             (pil_of sample_array sample_buffer))
                          "Grayscale"),
          {| heap := <[2%positive := sample_buffer ++ [ [[3; 3 # 2]] ]%Q]>
                       (heap sample_state);
             out := [] |}) /\
  @evaluate recording_collaborators 2
    (EApply "ImageAdjust"
       [EImage sample_image; ListExpression [EReal (1 # 2); EInteger 1]])
    sample_state =
    Some (EImage (MkImage (array_of 2%positive
                             (pil_of sample_array sample_buffer))
                          "Grayscale"),
          {| heap := <[2%positive :=
                         sample_buffer ++ [ [[2; 2]]; [[3; 3 # 2]] ]%Q]>
                       (heap sample_state);
             out := [] |}).
Proof.
  apply (@adjust_short_forms recording_collaborators sample_image
           (EReal (1 # 2)) (EInteger 1) (1 # 2) (inject_Z 1)
           sample_state sample_buffer 0);
    [vm_compute; reflexivity | reflexivity | reflexivity].
Defined.

Lemma evaluate_host `{Collaborators} (head : string) (args : list expr)
    (fuel : nat) (st : state) :
  rewrite head args = None -> builtin head args = None ->
  defined_here head = false ->
  evaluate (S fuel) (EApply head args) st =
  bind (host_builtin head args)
    (fun r => ret (default (EApply head args) r)) st.
Proof.
  intros Hrule Hmethod Hhere. cbn [evaluate].
  by rewrite Hrule, Hmethod, Hhere.
Qed.

(** X12: [Blur] computes nothing itself.  With a real radius [r] the call
    becomes the call [ImageConvolve[image, BoxMatrix[r] /
    Total[Flatten[BoxMatrix[r]]]]] of the host, whose result or failure is
    that of the call; without a radius the same happens with [r = 2]; and
    with a second argument that is not a real number the call stays as it
    was written. *)
Theorem blur_is_convolution `{Collaborators}
    (image : Image) (r r' : expr) (fuel : nat) (st : state) :
  RealNumberQ r = true -> RealNumberQ r' = false ->
  let convolve (radius : expr) :=
    bind (host_builtin "ImageConvolve" [EImage image; blur_kernel radius])
      (fun x => ret (default
         (EApply "ImageConvolve" [EImage image; blur_kernel radius]) x)) st in
  evaluate (S (S fuel)) (EApply "Blur" [EImage image; r]) st = convolve r /\
  evaluate (S (S (S fuel))) (EApply "Blur" [EImage image]) st =
    convolve (EInteger 2) /\
  evaluate (S fuel) (EApply "Blur" [EImage image; r']) st =
    Some (EApply "Blur" [EImage image; r'], st).
Proof.
  intros Hr Hr' convolve. subst convolve. split_and!.
  - rewrite (evaluate_rewrite "Blur" [EImage image; r]
               (EApply "ImageConvolve" [EImage image; blur_kernel r])).
    2: { unfold rewrite. cbn [String.eqb]. simpl.
         unfold Blur.rules. by rewrite Hr. }
    by apply evaluate_host.
  - rewrite (evaluate_rewrite "Blur" [EImage image]
               (EApply "Blur" [EImage image; EInteger 2])) by reflexivity.
    rewrite (evaluate_rewrite "Blur" [EImage image; EInteger 2]
               (EApply "ImageConvolve"
                  [EImage image; blur_kernel (EInteger 2)])) by reflexivity.
    by apply evaluate_host.
  - assert (rewrite "Blur" [EImage image; r'] = None) as Hrule.
    { unfold rewrite. cbn [String.eqb]. simpl.
      unfold Blur.rules. by rewrite Hr'. }
    cbn [evaluate]. by rewrite Hrule.
Qed.

Lemma blur_is_convolution_witness :
  @evaluate float_collaborators 2
    (EApply "Blur" [EImage sample_image; EReal (3 # 2)]) sample_state =
    Some (EApply "ImageConvolve"
            [EImage sample_image; blur_kernel (EReal (3 # 2))],
          sample_state) /\
  @evaluate float_collaborators 3
    (EApply "Blur" [EImage sample_image]) sample_state =
    Some (EApply "ImageConvolve"
            [EImage sample_image; blur_kernel (EInteger 2)],
          sample_state) /\
  @evaluate float_collaborators 1
    (EApply "Blur" [EImage sample_image; ESymbol "x"]) sample_state =
    Some (EApply "Blur" [EImage sample_image; ESymbol "x"], sample_state).
Proof.
  apply (@blur_is_convolution float_collaborators sample_image
           (EReal (3 # 2)) (ESymbol "x") 0 sample_state); reflexivity.
Defined.

(** X13: the size of [ImagePartition] is checked only when it is made of
    integers.  With a real number for the size, or for the width or the
    height of the tile, no rule and no method applies: the call is
    returned as it was written, whatever the number is, and nothing is
    reported. *)
Theorem partition_real_size `{Collaborators}
    (image : Image) (q : Q) (e : expr) (fuel : nat) (st : state) :
  let unevaluated (size : expr) :=
    evaluate (S fuel) (EApply "ImagePartition" [EImage image; size]) st =
    Some (EApply "ImagePartition" [EImage image; size], st) in
  unevaluated (EReal q) /\
  unevaluated (ListExpression [EReal q; e]) /\
  unevaluated (ListExpression [e; EReal q]).
Proof.
  intros unevaluated. subst unevaluated. split_and!.
  - reflexivity.
  - reflexivity.
  - assert (rewrite "ImagePartition"
              [EImage image; ListExpression [e; EReal q]] = None)
      as Hrule by reflexivity.
    assert (builtin "ImagePartition"
              [EImage image; ListExpression [e; EReal q]] = None) as Hmethod.
    { unfold builtin. cbn [String.eqb]. simpl.
      unfold ImagePartition.apply. by destruct e. }
    cbn [evaluate]. by rewrite Hrule, Hmethod.
Qed.

(** X14: [Sharpen[image]] is [Sharpen[image, 2]]: the unsharp mask is
    applied once, with the radius 2 for a call without radius and with the
    value of [r] for a real number [r], to the samples of the image, and
    the result is an image on a new buffer under the colour space of the
    input; with a second argument that is not a real number the call stays
    as it was written. *)
Theorem sharpen_calls `{Collaborators}
    (image : Image) (r r' : expr) (radius : Q)
    (st : state) (v : buffer) (fuel : nat) :
  contents (heap st) (pixels image) = Some v ->
  number r = Some radius -> RealNumberQ r' = false ->
  let l := fresh (dom (heap st)) in
  let result (rad : Q) :=
    let im := UnsharpMask_filter rad (pil_of (pixels image) v) in
    Some (EImage (MkImage (array_of l im) (color_space image)),
          {| heap := <[l := pil_data im]> (heap st); out := out st |}) in
  evaluate (S fuel) (EApply "Sharpen" [EImage image; r]) st = result radius /\
  evaluate (S (S fuel)) (EApply "Sharpen" [EImage image]) st =
    result (inject_Z 2) /\
  evaluate (S fuel) (EApply "Sharpen" [EImage image; r']) st =
    Some (EApply "Sharpen" [EImage image; r'], st).
Proof.
  intros Hv Hr Hr' l result. subst l result.
  assert (forall (e : expr) (q : Q) (n : nat), number e = Some q ->
            evaluate (S n) (EApply "Sharpen" [EImage image; e]) st =
            let im := UnsharpMask_filter q (pil_of (pixels image) v) in
            Some (EImage (MkImage (array_of (fresh (dom (heap st))) im)
                                  (color_space image)),
                  {| heap := <[fresh (dom (heap st)) := pil_data im]> (heap st);
                     out := out st |})) as Hcall.
  { intros e q n He.
    assert (rewrite "Sharpen" [EImage image; e] = None) as Hrule by reflexivity.
    assert (builtin "Sharpen" [EImage image; e] = Some (Sharpen.eval image e))
      as Hmethod.
    { unfold builtin. cbn [String.eqb]. simpl. unfold Sharpen.apply.
      by rewrite (number_RealNumberQ _ _ He). }
    cbn [evaluate]. rewrite Hrule, Hmethod. unfold bind.
    by rewrite (sharpen_run image e q st v Hv He). }
  split_and!.
  - by apply Hcall.
  - rewrite (evaluate_rewrite "Sharpen" [EImage image]
               (EApply "Sharpen" [EImage image; EInteger 2])) by reflexivity.
    by apply Hcall.
  - assert (rewrite "Sharpen" [EImage image; r'] = None) as Hrule
      by reflexivity.
    assert (builtin "Sharpen" [EImage image; r'] = None) as Hmethod.
    { unfold builtin. cbn [String.eqb]. simpl. unfold Sharpen.apply.
      by rewrite Hr'. }
    cbn [evaluate]. by rewrite Hrule, Hmethod.
Qed.

Lemma sharpen_calls_witness :
  @evaluate float_collaborators 2
    (EApply "Sharpen" [EImage sample_image]) sample_state =
  Some (EImage (MkImage (array_of 2%positive
                           (pil_of sample_array sample_buffer))
                        "Grayscale"),
        {| heap := <[2%positive := sample_buffer]> (heap sample_state);
           out := [] |}).
Proof.
  apply (@sharpen_calls float_collaborators sample_image
           (EReal (3 # 2)) (ESymbol "x") (3 # 2) sample_state sample_buffer 0);
    [vm_compute; reflexivity | reflexivity | reflexivity].
Defined.

(** X15: the result depends on the samples only: two float arrays that
    show the same samples, whatever their rank (shape [(h, w)] or
    [(h, w, 1)]), their buffer and their window in it, show the same
    samples after the call.  The special case of the code for arrays of
    rank 2, whose 0-d scales are wrapped into an array of one entry, thus
    agrees with the general case. *)
Theorem auto_normalize_rank_2 `{Collaborators}
    (image image' : Image) (st st1 st' st1' : state) (p p' : ndarray)
    (v : buffer) :
  pixels_as_float (pixels image) st = Some (p, st1) ->
  contents (heap st1) p = Some v ->
  pixels_as_float (pixels image') st' = Some (p', st1') ->
  contents (heap st1') p' = Some v ->
  (0 < nd_height p)%nat -> (0 < nd_width p)%nat ->
  exists (st2 st2' : state) (v1 : buffer),
    ImageAdjust.eval_auto image st =
      Some (Some (EImage (MkImage p (color_space image))), st2) /\
    ImageAdjust.eval_auto image' st' =
      Some (Some (EImage (MkImage p' (color_space image'))), st2') /\
    contents (heap st2) p = Some v1 /\
    contents (heap st2') p' = Some v1.
Proof.
  intros Hfloat Hv Hfloat' Hv' Hh Hw.
  assert (concat v <> []) as Hne
    by (eapply rect_concat_nonempty; [exact (contents_rect _ _ _ Hv)|done|done]).
  destruct (eval_auto_run image st st1 p v Hfloat Hv Hne) as (b2 & Hrun & Hv1).
  destruct (eval_auto_run image' st' st1' p' v Hfloat' Hv' Hne)
    as (b2' & Hrun' & Hv1').
  by eexists _, _, _.
Qed.

Lemma auto_normalize_rank_2_witness :
  exists (st2 st2' : state) (v1 : buffer),
    @ImageAdjust.eval_auto float_collaborators sample_image sample_state =
      Some (Some (EImage sample_image), st2) /\
    @ImageAdjust.eval_auto float_collaborators
      (MkImage sample_array_1 "Grayscale") sample_state =
      Some (Some (EImage (MkImage sample_array_1 "Grayscale")), st2') /\
    contents (heap st2) sample_array = Some v1 /\
    contents (heap st2') sample_array_1 = Some v1.
Proof.
  apply (@auto_normalize_rank_2 float_collaborators sample_image
           (MkImage sample_array_1 "Grayscale") sample_state sample_state
           sample_state sample_state sample_array sample_array_1
           sample_buffer);
    [reflexivity | vm_compute; reflexivity | reflexivity
    | vm_compute; reflexivity | simpl; lia | simpl; lia].
Defined.
